(** * image-drop: the upload-validation and asset-registry pipeline

    A shallow embedding of [src/server/index.ts]: the magic-number checks
    ([isPng], [isJpeg], [isGif], [isWebp]), the [POST /api/upload-image]
    handler and the [GET /api/my-images] handler, together with the parts of
    the JavaScript platform the two handlers lean on (strings as UTF-16 code
    units, [Buffer], [JSON.parse] / [JSON.stringify], [Object.values],
    [Array.prototype.sort]) and the external collaborators ([context],
    [media], [redis], the clock). *)

From Stdlib Require Import NArith ZArith List String Ascii Lia.
From Stdlib.Strings Require Import Byte.
From stdpp Require Import base option list sorting gmap.

Local Open Scope N_scope.
Set Warnings "-register-all,-clear-no-such-hyp".

(** ** JavaScript strings

    A JavaScript string is a sequence of 16-bit code units.  The ASCII
    literals of the program are written [js "..."]. *)

Abbreviation jsstring := (list N).

Definition js (s : string) : jsstring :=
  map N_of_ascii (list_ascii_of_string s).

(** [a < b] on two strings: lexicographic on code units, a proper prefix
    being smaller. *)
Fixpoint str_ltb (a b : jsstring) : bool :=
  match a, b with
  | _, [] => false
  | [], _ :: _ => true
  | x :: a', y :: b' =>
      if x <? y then true else if y <? x then false else str_ltb a' b'
  end.

(** [Boolean(s)] for a string: only the empty string is falsy. *)
Definition str_truthy (s : jsstring) : bool :=
  match s with [] => false | _ :: _ => true end.

(** [Boolean(v)] for a value of type [string | undefined]. *)
Definition opt_str_truthy (v : option jsstring) : bool :=
  match v with Some s => str_truthy s | None => false end.

(** [v === lit] for a value of type [string | undefined] and a literal. *)
Definition strict_eq (v : option jsstring) (lit : string) : bool :=
  bool_decide (v = Some (js lit)).

(** ** Buffers and the magic-number checks *)

Module Buffer.

(** [buf[i] === b]: an index past the end reads [undefined], which is
    never equal to a number. *)
Definition at_eq (buf : list byte) (i : nat) (b : byte) : bool :=
  match buf !! i with
  | Some x => Byte.eqb x b
  | None => false
  end.

Definition b64_alphabet : jsstring :=
  js "ABCDEFGHIJKLMNOPQRSTUVWXYZabcdefghijklmnopqrstuvwxyz0123456789+/".

Definition b64_digit (n : N) : N := nth (N.to_nat n) b64_alphabet 61.

(** [buf.toString('base64')]: the standard alphabet, padded with [=]. *)
Fixpoint toString_base64 (buf : list byte) : jsstring :=
  match buf with
  | [] => []
  | [a] =>
      let x := Byte.to_N a in
      [b64_digit (x / 4); b64_digit ((x mod 4) * 16); 61; 61]
  | [a; b] =>
      let x := Byte.to_N a in
      let y := Byte.to_N b in
      [b64_digit (x / 4); b64_digit ((x mod 4) * 16 + y / 16);
       b64_digit ((y mod 16) * 4); 61]
  | a :: b :: c :: rest =>
      let x := Byte.to_N a in
      let y := Byte.to_N b in
      let z := Byte.to_N c in
      b64_digit (x / 4) :: b64_digit ((x mod 4) * 16 + y / 16)
        :: b64_digit ((y mod 16) * 4 + z / 64) :: b64_digit (z mod 64)
        :: toString_base64 rest
  end.

End Buffer.

Import Buffer.

Definition isPng (buf : list byte) : bool :=
  (8 <=? length buf)%nat &&
  at_eq buf 0 x89 &&
  at_eq buf 1 x50 &&
  at_eq buf 2 x4e &&
  at_eq buf 3 x47 &&
  at_eq buf 4 x0d &&
  at_eq buf 5 x0a &&
  at_eq buf 6 x1a &&
  at_eq buf 7 x0a.

Definition isJpeg (buf : list byte) : bool :=
  (4 <=? length buf)%nat &&
  at_eq buf 0 xff &&
  at_eq buf 1 xd8 &&
  at_eq buf (length buf - 2) xff &&
  at_eq buf (length buf - 1) xd9.

Definition isGif (buf : list byte) : bool :=
  (6 <=? length buf)%nat &&
  at_eq buf 0 x47 &&
  at_eq buf 1 x49 &&
  at_eq buf 2 x46 &&
  at_eq buf 3 x38 &&
  (at_eq buf 4 x37 || at_eq buf 4 x39) &&
  at_eq buf 5 x61.

Definition isWebp (buf : list byte) : bool :=
  (12 <=? length buf)%nat &&
  at_eq buf 0 x52 &&
  at_eq buf 1 x49 &&
  at_eq buf 2 x46 &&
  at_eq buf 3 x46 &&
  at_eq buf 8 x57 &&
  at_eq buf 9 x45 &&
  at_eq buf 10 x42 &&
  at_eq buf 11 x50.

(** The [validByMagic] expression of the upload handler. *)
Definition validByMagic (contentType : option jsstring) (body : list byte) : bool :=
  (strict_eq contentType "image/png" && isPng body) ||
  (strict_eq contentType "image/jpeg" && isJpeg body) ||
  (strict_eq contentType "image/gif" && isGif body) ||
  (strict_eq contentType "image/webp" && isWebp body).

(** ** JSON

    [JSON.parse] over code units, following the JSON grammar (ECMA-404) that
    ECMAScript adopts, and [JSON.stringify] for objects whose properties all
    hold strings (the only objects this server serialises itself). *)

Module JSON.

(** A number token denotes [(-1)^neg * mantissa * 10^exp10] exactly; the
    Number value is that real correctly rounded to binary64. *)
Record number := mk_number { neg : bool; mantissa : N; exp10 : Z }.

(** What [JSON.parse] can return.  An object keeps its members in source
    order, duplicates included; reading a property takes the last binding
    of the key, as each member overwrites the previous one. *)
Inductive value :=
| JNull
| JBool (b : bool)
| JNumber (n : number)
| JString (s : jsstring)
| JArray (elements : list value)
| JObject (members : list (jsstring * value)).

(** The Number value is [+0] or [-0]: the token is zero, or it is at most
    [2^-1075], half of the least subnormal, and rounds to zero. *)
Definition rounds_to_zero (n : number) : bool :=
  (mantissa n =? 0) ||
  ((exp10 n <? 0)%Z &&
   (Z.of_N (mantissa n) * 2 ^ 1075 <=? 10 ^ (- exp10 n))%Z).

(** [Boolean(v)] *)
Definition truthy (v : value) : bool :=
  match v with
  | JNull => false
  | JBool b => b
  | JNumber n => negb (rounds_to_zero n)
  | JString s => str_truthy s
  | JArray _ => true
  | JObject _ => true
  end.

Fixpoint last_binding (k : jsstring) (ms : list (jsstring * value)) : option value :=
  match ms with
  | [] => None
  | (k', v) :: ms' =>
      match last_binding k ms' with
      | Some v' => Some v'
      | None => if bool_decide (k' = k) then Some v else None
      end
  end.

(** [v[k]] for a key that no prototype defines: [None] is [undefined]. *)
Definition get (v : value) (k : jsstring) : option value :=
  match v with
  | JObject ms => last_binding k ms
  | _ => None
  end.

(** *** Lexical level *)

Definition is_ws (c : N) : bool :=
  (c =? 32) || (c =? 9) || (c =? 10) || (c =? 13).

Fixpoint skip_ws (s : jsstring) : jsstring :=
  match s with
  | c :: s' => if is_ws c then skip_ws s' else s
  | [] => []
  end.

Definition is_digit (c : N) : bool := (48 <=? c) && (c <=? 57).

(** Reads [0-9]*, accumulating the decimal value onto [acc]; returns the
    value, how many digits were read, and the rest. *)
Fixpoint digits (s : jsstring) (acc : N) (count : nat) : N * nat * jsstring :=
  match s with
  | c :: s' =>
      if is_digit c then digits s' (10 * acc + (c - 48)) (S count)
      else (acc, count, s)
  | [] => (acc, count, [])
  end.

Definition hex_value (c : N) : option N :=
  if (48 <=? c) && (c <=? 57) then Some (c - 48)
  else if (97 <=? c) && (c <=? 102) then Some (c - 87)
  else if (65 <=? c) && (c <=? 70) then Some (c - 55)
  else None.

Definition hex4 (a b c d : N) : option N :=
  match hex_value a, hex_value b, hex_value c, hex_value d with
  | Some x, Some y, Some z, Some w => Some (((x * 16 + y) * 16 + z) * 16 + w)
  | _, _, _, _ => None
  end.

(** The characters of a string token after its opening quote, up to and
    including the closing quote. *)
Fixpoint string_chars (s : jsstring) : option (jsstring * jsstring) :=
  match s with
  | [] => None
  | c :: rest =>
      if c =? 34 then Some ([], rest)
      else if c =? 92 then
        match rest with
        | [] => None
        | e :: rest' =>
            let simple (u : N) :=
              match string_chars rest' with
              | Some (cs, r) => Some (u :: cs, r)
              | None => None
              end in
            if e =? 34 then simple 34
            else if e =? 92 then simple 92
            else if e =? 47 then simple 47
            else if e =? 98 then simple 8
            else if e =? 102 then simple 12
            else if e =? 110 then simple 10
            else if e =? 114 then simple 13
            else if e =? 116 then simple 9
            else if e =? 117 then
              match rest' with
              | a :: b :: c' :: d :: rest'' =>
                  match hex4 a b c' d with
                  | Some u =>
                      match string_chars rest'' with
                      | Some (cs, r) => Some (u :: cs, r)
                      | None => None
                      end
                  | None => None
                  end
              | _ => None
              end
            else None
        end
      else if c <? 32 then None
      else
        match string_chars rest with
        | Some (cs, r) => Some (c :: cs, r)
        | None => None
        end
  end.

(** The fraction and exponent parts that may follow the integer part
    [m] of a number token. *)
Definition frac_exp (ng : bool) (m : N) (s : jsstring) : option (number * jsstring) :=
  let after_frac :=
    match s with
    | c :: s' =>
        if c =? 46 then
          match digits s' m 0 with
          | (_, O, _) => None
          | (m', k, r) => Some (m', k, r)
          end
        else Some (m, O, s)
    | [] => Some (m, O, s)
    end in
  match after_frac with
  | None => None
  | Some (m', k, r) =>
      let plain := Some (mk_number ng m' (- Z.of_nat k), r) in
      match r with
      | c :: r' =>
          if (c =? 101) || (c =? 69) then
            let '(eneg, r'') :=
              match r' with
              | sg :: t =>
                  if sg =? 43 then (false, t)
                  else if sg =? 45 then (true, t)
                  else (false, r')
              | [] => (false, r')
              end in
            match digits r'' 0 0 with
            | (_, O, _) => None
            | (e, _, r3) =>
                let ez := if eneg then (- Z.of_N e)%Z else Z.of_N e in
                Some (mk_number ng m' (ez - Z.of_nat k), r3)
            end
          else plain
      | [] => plain
      end
  end.

Definition number_token (s : jsstring) : option (number * jsstring) :=
  let '(ng, s1) :=
    match s with
    | c :: r => if c =? 45 then (true, r) else (false, s)
    | [] => (false, s)
    end in
  match s1 with
  | c :: r =>
      if c =? 48 then frac_exp ng 0 r
      else if is_digit c then
        let '(m, _, r') := digits s1 0 0 in frac_exp ng m r'
      else None
  | [] => None
  end.

Fixpoint strip_prefix (p s : jsstring) : option jsstring :=
  match p, s with
  | [], _ => Some s
  | x :: p', y :: s' => if x =? y then strip_prefix p' s' else None
  | _ :: _, [] => None
  end.

(** *** Values *)

Inductive result (A : Type) :=
| Ok (a : A) (rest : jsstring)
| SyntaxError
| OutOfFuel.
Arguments Ok {A} a rest.
Arguments SyntaxError {A}.
Arguments OutOfFuel {A}.

(** Recursive descent; [fuel] bounds the number of nested calls and
    [2 * length s + 2] is always enough (see [parse_value_fuel]). *)
Fixpoint parse_value (fuel : nat) (s : jsstring) : result value :=
  match fuel with
  | O => OutOfFuel
  | S fuel' =>
      match skip_ws s with
      | [] => SyntaxError
      | c :: r =>
          if c =? 123 then
            match skip_ws r with
            | c' :: r' =>
                if c' =? 125 then Ok (JObject []) r'
                else parse_members fuel' (c' :: r') []
            | [] => SyntaxError
            end
          else if c =? 91 then
            match skip_ws r with
            | c' :: r' =>
                if c' =? 93 then Ok (JArray []) r'
                else parse_elements fuel' (c' :: r') []
            | [] => SyntaxError
            end
          else if c =? 34 then
            match string_chars r with
            | Some (cs, r') => Ok (JString cs) r'
            | None => SyntaxError
            end
          else
            match strip_prefix (js "true") (c :: r) with
            | Some r' => Ok (JBool true) r'
            | None =>
            match strip_prefix (js "false") (c :: r) with
            | Some r' => Ok (JBool false) r'
            | None =>
            match strip_prefix (js "null") (c :: r) with
            | Some r' => Ok JNull r'
            | None =>
            match number_token (c :: r) with
            | Some (n, r') => Ok (JNumber n) r'
            | None => SyntaxError
            end end end end
      end
  end

with parse_elements (fuel : nat) (s : jsstring) (acc : list value) : result value :=
  match fuel with
  | O => OutOfFuel
  | S fuel' =>
      match parse_value fuel' s with
      | Ok v r =>
          match skip_ws r with
          | c :: r' =>
              if c =? 44 then parse_elements fuel' r' (v :: acc)
              else if c =? 93 then Ok (JArray (rev (v :: acc))) r'
              else SyntaxError
          | [] => SyntaxError
          end
      | SyntaxError => SyntaxError
      | OutOfFuel => OutOfFuel
      end
  end

with parse_members (fuel : nat) (s : jsstring) (acc : list (jsstring * value)) : result value :=
  match fuel with
  | O => OutOfFuel
  | S fuel' =>
      match skip_ws s with
      | c :: r =>
          if c =? 34 then
            match string_chars r with
            | Some (k, r1) =>
                match skip_ws r1 with
                | c1 :: r2 =>
                    if c1 =? 58 then
                      match parse_value fuel' r2 with
                      | Ok v r3 =>
                          match skip_ws r3 with
                          | c3 :: r4 =>
                              if c3 =? 44 then parse_members fuel' r4 ((k, v) :: acc)
                              else if c3 =? 125 then Ok (JObject (rev ((k, v) :: acc))) r4
                              else SyntaxError
                          | [] => SyntaxError
                          end
                      | SyntaxError => SyntaxError
                      | OutOfFuel => OutOfFuel
                      end
                    else SyntaxError
                | [] => SyntaxError
                end
            | None => SyntaxError
            end
          else SyntaxError
      | [] => SyntaxError
      end
  end.

(** [JSON.parse(text)]: [None] when it throws a [SyntaxError]. *)
Definition parse (text : jsstring) : option value :=
  match parse_value (2 * length text + 2) text with
  | Ok v rest =>
      match skip_ws rest with
      | [] => Some v
      | _ :: _ => None
      end
  | SyntaxError => None
  | OutOfFuel => None
  end.

(** *** Serialisation *)

Definition hex_digit (n : N) : N := if n <? 10 then 48 + n else 87 + n.

(** [UnicodeEscape]: a backslash, [u] and four lower-case hex digits. *)
Definition unicode_escape (c : N) : jsstring :=
  [92; 117; hex_digit (c / 4096 mod 16); hex_digit (c / 256 mod 16);
   hex_digit (c / 16 mod 16); hex_digit (c mod 16)].

Definition is_leading_surrogate (c : N) : bool := (55296 <=? c) && (c <=? 56319).
Definition is_trailing_surrogate (c : N) : bool := (56320 <=? c) && (c <=? 57343).

(** The body of [QuoteJSONString]: the string is read by code points, so
    a leading surrogate followed by a trailing one is copied as a pair
    and any other surrogate is escaped. *)
Fixpoint quote_chars (s : jsstring) : jsstring :=
  match s with
  | [] => []
  | c :: s' =>
      if c =? 8 then 92 :: 98 :: quote_chars s'
      else if c =? 9 then 92 :: 116 :: quote_chars s'
      else if c =? 10 then 92 :: 110 :: quote_chars s'
      else if c =? 12 then 92 :: 102 :: quote_chars s'
      else if c =? 13 then 92 :: 114 :: quote_chars s'
      else if c =? 34 then 92 :: 34 :: quote_chars s'
      else if c =? 92 then 92 :: 92 :: quote_chars s'
      else if c <? 32 then unicode_escape c ++ quote_chars s'
      else if is_leading_surrogate c then
        match s' with
        | d :: s'' =>
            if is_trailing_surrogate d then c :: d :: quote_chars s''
            else unicode_escape c ++ quote_chars s'
        | [] => unicode_escape c
        end
      else if is_trailing_surrogate c then unicode_escape c ++ quote_chars s'
      else c :: quote_chars s'
  end.

Definition QuoteJSONString (s : jsstring) : jsstring :=
  34 :: quote_chars s ++ [34].

Fixpoint join_members (ms : list (jsstring * jsstring)) : jsstring :=
  match ms with
  | [] => []
  | [(k, v)] => QuoteJSONString k ++ 58 :: QuoteJSONString v
  | (k, v) :: ms' => QuoteJSONString k ++ 58 :: QuoteJSONString v ++ 44 :: join_members ms'
  end.

(** [JSON.stringify(o)] for an object whose own properties, in order,
    are the string-valued [ms]. *)
Definition stringify (ms : list (jsstring * jsstring)) : jsstring :=
  123 :: join_members ms ++ [125].

End JSON.

(** ** Shared types ([src/shared/types/api.ts]) *)

Inductive MediaType := image | gif | video.

Definition MediaType_string (t : MediaType) : jsstring :=
  match t with
  | image => js "image"
  | gif => js "gif"
  | video => js "video"
  end.

Record UploadedAsset := {
  mediaType : MediaType;
  mediaUrl : jsstring;
  mediaId : jsstring;
  date : jsstring;
}.

(** The own properties of the [assetData] object literal, in order. *)
Definition asset_properties (a : UploadedAsset) : list (jsstring * jsstring) :=
  [(js "mediaType", MediaType_string (mediaType a));
   (js "mediaUrl", mediaUrl a);
   (js "mediaId", mediaId a);
   (js "date", date a)].

(** What [JSON.parse] gives back for a record written by the server. *)
Definition asset_value (a : UploadedAsset) : JSON.value :=
  JSON.JObject (map (fun kv => (kv.1, JSON.JString kv.2)) (asset_properties a)).

Inductive ResponseBody :=
| error_body (message : jsstring)
| upload_body (mimeType : jsstring) (bytes : nat) (fileName : option jsstring)
| listUploads_body (assets : list JSON.value).

Record Response := { status : Z; body : ResponseBody }.

(** ** The platform: requests, external services, effects *)

(** [req.headers[name]] has type [string | string[] | undefined]. *)
Inductive HeaderValue :=
| HUndefined
| HString (s : jsstring)
| HArray (l : list jsstring).

(** [req.body] as the body parsers leave it: absent, a [Buffer], or some
    other value (an object or a string), of which only its truthiness can
    matter to the handler.  The handlers are modelled from the point where
    the router calls them: the parsers have run, and a request they refuse
    (a body over the limit, for one) never reaches a handler. *)
Inductive RequestBody :=
| BUndefined
| BBuffer (bytes : list byte)
| BOther (truthy : bool).

Record Request := {
  content_type : option jsstring;
  x_file_name : HeaderValue;
  req_body : RequestBody;
}.

Definition body_truthy (b : RequestBody) : bool :=
  match b with
  | BUndefined => false
  | BBuffer _ => true
  | BOther t => t
  end.

Definition isBuffer (b : RequestBody) : bool :=
  match b with BBuffer _ => true | _ => false end.

(** [body as Buffer]: the bytes, once the guard has established that the
    body is a [Buffer]. *)
Definition as_Buffer (b : RequestBody) : list byte :=
  match b with BBuffer bytes => bytes | _ => [] end.

(** The value of a [string | undefined] expression that a guard has
    narrowed to [string]. *)
Definition narrowed (v : option jsstring) : jsstring := default [] v.

Inductive Outcome (A : Type) :=
| Returns (a : A)
| Throws (error : jsstring).
Arguments Returns {A} a.
Arguments Throws {A} error.

(** [media.upload] resolves to an object with these two fields. *)
Record MediaAsset := { asset_mediaId : jsstring; asset_mediaUrl : jsstring }.

(** Calls that leave the process, in the order they are made. *)
Inductive Call :=
| media_upload_call (type : MediaType) (url : jsstring)
| redis_hSet_call (key field value : jsstring)
| redis_hGetAll_call (key : jsstring)
| console_error_call (label : jsstring).

(** The state outside the handlers: the key-value store, a hash per key,
    and the trace of calls made so far. *)
Record World := {
  redis_db : gmap jsstring (gmap jsstring jsstring);
  trace : list Call;
}.

(** What one request finds around it: the caller identity supplied by the
    host, how the media store answers, whether the key-value store
    answers, and the reading of the clock in ISO-8601. *)
Record Env := {
  context_userId : option jsstring;
  media_service : MediaType -> jsstring -> Outcome MediaAsset;
  redis_error : option jsstring;
  clock_iso : jsstring;
}.

(** State and exceptions. *)
Definition M (A : Type) : Type := World -> Outcome A * World.

Definition ret {A} (a : A) : M A := fun w => (Returns a, w).

Definition bind {A B} (m : M A) (k : A -> M B) : M B :=
  fun w =>
    match m w with
    | (Returns a, w') => k a w'
    | (Throws e, w') => (Throws e, w')
    end.

(** A computation that touches nothing outside. *)
Definition lift {A} (o : Outcome A) : M A := fun w => (o, w).

Notation "x <- m ;; k" := (bind m (fun x => k))
  (at level 100, m at next level, right associativity).

Definition called (c : Call) (w : World) : World :=
  {| redis_db := redis_db w; trace := trace w ++ [c] |}.

(** A handler always answers: its [catch] block cannot throw. *)
Definition Handler : Type := World -> Response * World.

Definition try_catch (m : M Response) (handler : jsstring -> Handler) : Handler :=
  fun w =>
    match m w with
    | (Returns r, w') => (r, w')
    | (Throws e, w') => handler e w'
    end.

Definition console_error (label : string) (k : Handler) : Handler :=
  fun w => k (called (console_error_call (js label)) w).

Definition respond (code : Z) (b : ResponseBody) : Response :=
  {| status := code; body := b |}.

Definition error_response (code : Z) (message : string) : Response :=
  respond code (error_body (js message)).

Module media.
Definition upload (env : Env) (type : MediaType) (url : jsstring) : M MediaAsset :=
  fun w => (media_service env type url, called (media_upload_call type url) w).
End media.

Module redis.
(** [HSET key field value]: creates the hash when the key is new and
    overwrites the field when it exists. *)
Definition hash_set (key field value : jsstring)
    (db : gmap jsstring (gmap jsstring jsstring)) : gmap jsstring (gmap jsstring jsstring) :=
  <[key := <[field := value]> (default ∅ (db !! key))]> db.

Definition hSet (env : Env) (key field value : jsstring) : M unit :=
  fun w =>
    let w' := called (redis_hSet_call key field value) w in
    match redis_error env with
    | Some e => (Throws e, w')
    | None =>
        (Returns tt,
         {| redis_db := hash_set key field value (redis_db w'); trace := trace w' |})
    end.

(** [None] is a nullish answer for a key that holds nothing. *)
Definition hGetAll (env : Env) (key : jsstring) : M (option (gmap jsstring jsstring)) :=
  fun w =>
    let w' := called (redis_hGetAll_call key) w in
    match redis_error env with
    | Some e => (Throws e, w')
    | None => (Returns (redis_db w !! key), w')
    end.
End redis.

Module Object.
(** [Object.values(o)] for a record of strings, in the order the map
    enumerates its fields; the statements below hold for any order. *)
Definition values (o : gmap jsstring jsstring) : list jsstring :=
  (map_to_list o).*2.
End Object.

Module Array.
Section Sort.
Context {A : Type} (comparefn : A -> A -> Outcome Z).

(** One pass of the insertion sort: [sorted] is the sorted prefix, last
    element first; [element] moves left past every [tmp] for which
    [comparefn(tmp, element) > 0].  An exception of [comparefn] ends the
    sort. *)
Fixpoint insert (element : A) (sorted : list A) : Outcome (list A) :=
  match sorted with
  | [] => Returns [element]
  | tmp :: rest =>
      match comparefn tmp element with
      | Returns order =>
          if (0 <? order)%Z then
            match insert element rest with
            | Returns rest' => Returns (tmp :: rest')
            | Throws e => Throws e
            end
          else Returns (element :: tmp :: rest)
      | Throws e => Throws e
      end
  end.

Fixpoint insert_all (a sorted : list A) : Outcome (list A) :=
  match a with
  | [] => Returns sorted
  | element :: a' =>
      match insert element sorted with
      | Returns sorted' => insert_all a' sorted'
      | Throws e => Throws e
      end
  end.

(** [a.sort(comparefn)], as the stable insertion sort. *)
Definition sort (a : list A) : Outcome (list A) :=
  match insert_all a [] with
  | Returns sorted => Returns (rev sorted)
  | Throws e => Throws e
  end.
End Sort.
End Array.

(** ** Comparing decoded values *)

(** The primitive values a decoded value converts to; [PUndefined] stands
    for a property that is not there. *)
Inductive primitive :=
| PUndefined
| PNull
| PBool (b : bool)
| PNumber (n : JSON.number)
| PString (s : jsstring).

(** What the engine does with numbers, left open: [Number::toString], and
    [x < y] for two primitives that are not both strings and of which
    neither is [undefined] (both then go through [ToNumber]). *)
Record Numerics := {
  Number_toString : JSON.number -> jsstring;
  lt_numeric : primitive -> primitive -> bool;
}.

(** ** The two handlers *)

Section Server.

Variable engine : Numerics.

(** The object has an own property [k]. *)
Definition has_own (k : string) (members : list (jsstring * JSON.value)) : bool :=
  existsb (fun m => bool_decide (m.1 = js k)) members.

(** [ToString(v)] for a decoded value.  An array is joined with commas,
    [null] elements giving the empty string.  A plain object answers
    through [Object.prototype.toString], unless an own [toString] property
    hides it: what [JSON.parse] stored there is not callable, and the
    conversion throws a [TypeError]. *)
Fixpoint ToString (v : JSON.value) : Outcome jsstring :=
  match v with
  | JSON.JNull => Returns (js "null")
  | JSON.JBool b => Returns (if b then js "true" else js "false")
  | JSON.JNumber n => Returns (Number_toString engine n)
  | JSON.JString s => Returns s
  | JSON.JArray elements =>
      (fix join (first : bool) (l : list JSON.value) : Outcome jsstring :=
         match l with
         | [] => Returns []
         | element :: l' =>
             match
               match element with
               | JSON.JNull => Returns []
               | _ => ToString element
               end
             with
             | Returns next =>
                 match join false l' with
                 | Returns r => Returns ((if first then [] else [44]) ++ next ++ r)
                 | Throws e => Throws e
                 end
             | Throws e => Throws e
             end
         end) true elements
  | JSON.JObject members =>
      if has_own "toString" members then Throws (js "TypeError")
      else Returns (js "[object Object]")
  end.

(** [ToPrimitive(v)], where [None] is [undefined]. *)
Definition ToPrimitive (v : option JSON.value) : Outcome primitive :=
  match v with
  | None => Returns PUndefined
  | Some JSON.JNull => Returns PNull
  | Some (JSON.JBool b) => Returns (PBool b)
  | Some (JSON.JNumber n) => Returns (PNumber n)
  | Some (JSON.JString s) => Returns (PString s)
  | Some v' =>
      match ToString v' with
      | Returns s => Returns (PString s)
      | Throws e => Throws e
      end
  end.

(** [x < y]: both operands are converted, the left one first; two strings
    are compared by code units; [undefined] converts to [NaN], which is
    below nothing and above nothing. *)
Definition js_lt (x y : option JSON.value) : Outcome bool :=
  match ToPrimitive x with
  | Returns px =>
      match ToPrimitive y with
      | Returns py =>
          Returns
            match px, py with
            | PString a, PString b => str_ltb a b
            | PUndefined, _ | _, PUndefined => false
            | _, _ => lt_numeric engine px py
            end
      | Throws e => Throws e
      end
  | Throws e => Throws e
  end.

(** The comparator [(a, b) => (a.date < b.date ? 1 : -1)]. *)
Definition by_date_desc (a b : JSON.value) : Outcome Z :=
  match js_lt (JSON.get a (js "date")) (JSON.get b (js "date")) with
  | Returns true => Returns 1%Z
  | Returns false => Returns (-1)%Z
  | Throws e => Throws e
  end.

(** The callback of [.map]: [JSON.parse(raw)], or [null] when it throws. *)
Definition decode (raw : jsstring) : JSON.value :=
  match JSON.parse raw with
  | Some v => v
  | None => JSON.JNull
  end.

(** [GET /api/my-images] *)
Definition my_images (env : Env) : Handler :=
  try_catch
    (if negb (opt_str_truthy (context_userId env)) then
       ret (error_response 401 "Unauthorized")
     else
       entries <- redis.hGetAll env (narrowed (context_userId env)) ;;
       assets <- lift
         (Array.sort by_date_desc
            (filter (fun a => JSON.truthy a = true)
               (decode <$> Object.values (default ∅ entries)))) ;;
       ret (respond 200 (listUploads_body assets)))
    (fun error =>
       console_error "List uploads error:"
         (fun w => (error_response 400 "Failed to fetch uploads", w))).

(** The [try] block of [POST /api/upload-image]. *)
Definition upload_image_try (env : Env) (req : Request) : M Response :=
  let contentType := content_type req in
  if negb (strict_eq contentType "image/png") &&
     negb (strict_eq contentType "image/jpeg") &&
     negb (strict_eq contentType "image/gif") &&
     negb (strict_eq contentType "image/webp")
  then ret (error_response 415 "Unsupported Content-Type")
  else
    let body := req_body req in
    if negb (body_truthy body) || negb (isBuffer body) ||
       (length (as_Buffer body) =? 0)%nat
    then ret (error_response 400 "Empty or invalid request body")
    else
      let body := as_Buffer body in
      if negb (validByMagic contentType body)
      then ret (error_response 415 "Invalid image format")
      else
        let fileNameHeader := x_file_name req in
        let fileName :=
          match fileNameHeader with
          | HArray l => head l
          | HString s => Some s
          | HUndefined => None
          end in
        let mimeType := narrowed contentType in
        let bytes := length body in
        let mediaType := if strict_eq contentType "image/gif" then gif else image in
        let dataUrl :=
          js "data:" ++ narrowed contentType ++ js ";base64," ++ toString_base64 body in
        asset <- media.upload env mediaType dataUrl ;;
        let assetData :=
          {| mediaType := mediaType;
             mediaUrl := asset_mediaUrl asset;
             mediaId := asset_mediaId asset;
             date := clock_iso env |} in
        _ <- redis.hSet env (narrowed (context_userId env)) (asset_mediaUrl asset)
               (JSON.stringify (asset_properties assetData)) ;;
        if opt_str_truthy fileName
        then ret (respond 200 (upload_body mimeType bytes fileName))
        else ret (respond 200 (upload_body mimeType bytes None)).

(** [POST /api/upload-image] *)
Definition upload_image (env : Env) (req : Request) : Handler :=
  if negb (opt_str_truthy (context_userId env)) then
    fun w => (error_response 401 "Unauthorized", w)
  else
    try_catch (upload_image_try env req)
      (fun error =>
         console_error "Upload error:"
           (fun w => (error_response 400 "Failed to process image upload", w))).

End Server.

(** ** The raw body parser ([app.use(express.raw(...))]) *)

(** The [type] callback given to [express.raw]: the raw parser reads the
    body into a [Buffer] only for a request on which it answers [true]. *)
Definition raw_type (ct : option jsstring) : bool :=
  strict_eq ct "image/png" || strict_eq ct "image/jpeg" ||
  strict_eq ct "image/gif" || strict_eq ct "image/webp".

(** ** The client ([src/client/App.tsx], [src/client/History.tsx])

    The components keep their state in [useState] cells; a callback is
    modelled as a function from the state it finds to the state it leaves,
    given what the network answers. *)

(** [res.ok]: the status is in the range 200-299. *)
Definition res_ok (status : Z) : bool := (200 <=? status)%Z && (status <=? 299)%Z.

Module App.

(** What the component reads of a [File]. *)
Record File := { name : jsstring; type : jsstring; size : N }.

Definition allowedTypes : list jsstring :=
  [js "image/png"; js "image/jpeg"; js "image/gif"; js "image/webp"].

(** [a.includes(x)] for strings. *)
Definition includes (a : list jsstring) (x : jsstring) : bool :=
  existsb (fun y => bool_decide (y = x)) a.

(** [validateFile]: the error message, or [None] for [null]. *)
Definition validateFile (file : File) : option jsstring :=
  if negb (includes allowedTypes (type file)) then
    Some (js "Only PNG, JPEG, GIF, or WEBP images are allowed.")
  else if 4 * 1024 * 1024 <? size file then
    Some (js "Image must be under 4MB.")
  else None.

(** The [useState] cells of [App]; [serverInfo] is [JNull] for [null]. *)
Record State := {
  dragActive : bool;
  selectedFile : option File;
  previewUrl : option jsstring;
  uploading : bool;
  message : option jsstring;
  serverInfo : JSON.value;
}.

(** What a callback does besides setting state. *)
Inductive Effect :=
| revokeObjectURL (url : jsstring)
| createObjectURL (file : File)
| call_uploadFile (file : File).

(** [resetPreview] *)
Definition resetPreview (s : State) : State * list Effect :=
  ({| dragActive := dragActive s;
      selectedFile := None;
      previewUrl := None;
      uploading := uploading s;
      message := message s;
      serverInfo := JSON.JNull |},
   if opt_str_truthy (previewUrl s) then [revokeObjectURL (narrowed (previewUrl s))]
   else []).

(** [handleFiles(files)], up to the call of [uploadFile]; [files] is [None]
    for [null], and [object_url] is what [URL.createObjectURL] answers. *)
Definition handleFiles (object_url : File -> jsstring) (files : option (list File))
    (s : State) : State * list Effect :=
  match files with
  | None => (s, [])
  | Some [] => (s, [])
  | Some (file :: _) =>
      let err := validateFile file in
      if opt_str_truthy err then
        resetPreview
          {| dragActive := dragActive s;
             selectedFile := selectedFile s;
             previewUrl := previewUrl s;
             uploading := uploading s;
             message := err;
             serverInfo := serverInfo s |}
      else
        ({| dragActive := dragActive s;
            selectedFile := Some file;
            previewUrl := Some (object_url file);
            uploading := uploading s;
            message := None;
            serverInfo := JSON.JNull |},
         [createObjectURL file; call_uploadFile file])
  end.

(** What [uploadFile] meets: [file.arrayBuffer()] or [fetch] rejects, or
    the server answers with a status, and [res.json()] gives a value or
    rejects. *)
Inductive Network :=
| arrayBuffer_rejected
| fetch_rejected
| fetch_resolved (status : Z) (json : Outcome JSON.value).

(** [uploadFile(file)], from its first line to its [finally]. *)
Definition uploadFile (net : Network) (s : State) : State :=
  let data : option JSON.value :=
    match net with
    | arrayBuffer_rejected => None
    | fetch_rejected => None
    | fetch_resolved status json =>
        if negb (res_ok status) then None
        else match json with
             | Returns data => Some data
             | Throws _ => None
             end
    end in
  {| dragActive := dragActive s;
     selectedFile := selectedFile s;
     previewUrl := previewUrl s;
     uploading := false;
     message :=
       match data with
       | Some _ => Some (js "Upload successful")
       | None => Some (js "Upload failed. Please try another image.")
       end;
     serverInfo :=
       match data with
       | Some d => d
       | None => JSON.JNull
       end |}.

End App.

Module History.

(** The cells [assets] and [loading]; [assets] is [Some JNull] for [null]
    and [None] for [undefined]. *)
Record State := { assets : option JSON.value; loading : bool }.

Inductive Network :=
| fetch_rejected
| fetch_resolved (status : Z) (json : Outcome JSON.value).


End History.

(** ** Vocabulary of the statements *)

(** The four formats the sniffer knows, with their MIME strings and checks. *)
Inductive Format := Png | Jpeg | Gif | Webp.

Definition mime (f : Format) : jsstring :=
  match f with
  | Png => js "image/png"
  | Jpeg => js "image/jpeg"
  | Gif => js "image/gif"
  | Webp => js "image/webp"
  end.

Definition has_magic (f : Format) (buf : list byte) : bool :=
  match f with
  | Png => isPng buf
  | Jpeg => isJpeg buf
  | Gif => isGif buf
  | Webp => isWebp buf
  end.

Definition Format_eqb (f g : Format) : bool :=
  match f, g with
  | Png, Png | Jpeg, Jpeg | Gif, Gif | Webp, Webp => true
  | _, _ => false
  end.

Definition png_signature : list byte := [x89; x50; x4e; x47; x0d; x0a; x1a; x0a].

(** The declared type is one of the four allowed MIME strings. *)
Definition allowed_type (ct : option jsstring) : Prop := exists f, ct = Some (mime f).

(** The [mediaType] the upload handler derives, the data URL it sends to
    the media store and the record it builds from the store's answer. *)
Definition derived_mediaType (ct : option jsstring) : MediaType :=
  if strict_eq ct "image/gif" then gif else image.

Definition data_url (ct : option jsstring) (bytes : list byte) : jsstring :=
  js "data:" ++ narrowed ct ++ js ";base64," ++ toString_base64 bytes.

Definition stored_record (env : Env) (ct : option jsstring) (asset : MediaAsset) : UploadedAsset :=
  {| mediaType := derived_mediaType ct;
     mediaUrl := asset_mediaUrl asset;
     mediaId := asset_mediaId asset;
     date := clock_iso env |}.

(** The first value of a header, when it has one. *)
Definition first_value (h : HeaderValue) : option jsstring :=
  match h with
  | HArray l => head l
  | HString s => Some s
  | HUndefined => None
  end.

(** Concrete requests and surroundings used to exercise the handlers. *)
Definition alice : jsstring := js "t2_alice".

Definition media_ok (id url : string) : MediaType -> jsstring -> Outcome MediaAsset :=
  fun _ _ => Returns {| asset_mediaId := js id; asset_mediaUrl := js url |}.

Definition env_day1 : Env :=
  {| context_userId := Some alice;
     media_service := media_ok "media-1" "https://i.redd.it/one.png";
     redis_error := None;
     clock_iso := js "2024-01-01T10:00:00.000Z" |}.

Definition env_day2 : Env :=
  {| context_userId := Some alice;
     media_service := media_ok "media-2" "https://i.redd.it/two.png";
     redis_error := None;
     clock_iso := js "2024-01-02T09:30:00.000Z" |}.

Definition env_redis_down : Env :=
  {| context_userId := Some alice;
     media_service := media_ok "media-1" "https://i.redd.it/one.png";
     redis_error := Some (js "ECONNREFUSED");
     clock_iso := js "2024-01-01T10:00:00.000Z" |}.

Definition env_anonymous : Env :=
  {| context_userId := None;
     media_service := media_ok "media-1" "https://i.redd.it/one.png";
     redis_error := None;
     clock_iso := js "2024-01-01T10:00:00.000Z" |}.

Definition png_request : Request :=
  {| content_type := Some (js "image/png");
     x_file_name := HString (js "cat.png");
     req_body := BBuffer (png_signature ++ [x00; x01]) |}.

Definition empty_text_request : Request :=
  {| content_type := Some (js "text/plain");
     x_file_name := HUndefined;
     req_body := BBuffer [] |}.

Definition fresh_world : World := {| redis_db := ∅; trace := [] |}.

(** What a stored field value contributes to the listing: the value it
    decodes to, or nothing when [JSON.parse] throws on it or the decoded
    value is falsy. *)
Definition surviving (raw : jsstring) : option JSON.value :=
  match JSON.parse raw with
  | Some v => if JSON.truthy v then Some v else None
  | None => None
  end.

(** A world whose only collection holds one record and one corrupt value. *)
Definition world_with_corrupt_entry : World :=
  {| redis_db :=
       {[ alice :=
            <[ js "https://i.redd.it/one.png" :=
                 JSON.stringify (asset_properties
                   {| mediaType := image;
                      mediaUrl := js "https://i.redd.it/one.png";
                      mediaId := js "media-1";
                      date := js "2024-01-01T10:00:00.000Z" |}) ]>
              {[ js "https://i.redd.it/broken.png" := js "{oops" ]} ]};
     trace := [] |}.

(** The worlds the two endpoints can produce, starting from a store that
    holds nothing. *)
Inductive reachable : World -> Prop :=
| reachable_fresh : reachable fresh_world
| reachable_upload env req w :
    reachable w -> reachable (upload_image env req w).2
| reachable_list engine env w :
    reachable w -> reachable (my_images engine env w).2.

(** Every value in the store is a serialised asset record, filed under its
    [mediaUrl], whose [mediaType] is [image] or [gif]. *)
Definition records_well_typed (w : World) : Prop :=
  forall key (h : gmap jsstring jsstring) field raw,
    redis_db w !! key = Some h -> h !! field = Some raw ->
    exists a, raw = JSON.stringify (asset_properties a) /\
              mediaUrl a = field /\
              (mediaType a = image \/ mediaType a = gif).

(** How the media store answers the one call an upload makes. *)
Definition media_answer (env : Env) (req : Request) : Outcome MediaAsset :=
  media_service env (derived_mediaType (content_type req))
    (data_url (content_type req) (as_Buffer (req_body req))).

(** [x] may stand before [y]: the comparison [c] does not ask to swap
    them. *)
Definition in_order {A : Type} (c : A -> A -> Z) (x y : A) : Prop :=
  ~ (0 < c x y)%Z.

(** The [date] of a decoded value when it is a string, and what the
    comparator of the listing answers on two such dates. *)
Definition date_string (v : JSON.value) : jsstring :=
  match JSON.get v (js "date") with
  | Some (JSON.JString d) => d
  | _ => []
  end.

Definition newer_first (a b : JSON.value) : Z :=
  if str_ltb (date_string a) (date_string b) then 1%Z else (-1)%Z.

(** The [date] of a decoded value can be converted for a comparison. *)
Definition comparable (engine : Numerics) (v : JSON.value) : Prop :=
  exists p, ToPrimitive engine (JSON.get v (js "date")) = Returns p.

(** An engine whose answers on numbers are fixed, to run the handlers on
    values that hold none. *)
Definition plain_engine : Numerics :=
  {| Number_toString := fun _ => js "0"; lt_numeric := fun _ _ => false |}.

(** A JSON text for an object whose [date] is an object with an own
    [toString], and a world whose only collection holds it beside an
    empty object. *)
Definition quoted (s : string) : jsstring := 34 :: js s ++ [34].

Definition uncomparable_text : jsstring :=
  js "{" ++ quoted "date" ++ js ":{" ++ quoted "toString" ++ js ":null}}".

Definition world_with_uncomparable_date : World :=
  {| redis_db :=
       {[ alice :=
            <[ js "https://i.redd.it/one.png" := uncomparable_text ]>
              {[ js "https://i.redd.it/two.png" := js "{}" ]} ]};
     trace := [] |}.

(** A decoded value carries a string [date]. *)
Definition dated (v : JSON.value) : Prop :=
  exists d, JSON.get v (js "date") = Some (JSON.JString d).

(** The signatures the sniffer looks for, besides [png_signature]. *)
Definition gif87a : list byte := [x47; x49; x46; x38; x37; x61].
Definition gif89a : list byte := [x47; x49; x46; x38; x39; x61].
Definition riff : list byte := [x52; x49; x46; x46].
Definition webp_tag : list byte := [x57; x45; x42; x50].

(** Every run of the upload handler is one of seven paths. *)
Inductive upload_path (env : Env) (req : Request) (w : World) : Prop :=
| path_unauthorized :
    opt_str_truthy (context_userId env) = false ->
    upload_image env req w = (error_response 401 "Unauthorized", w) ->
    upload_path env req w
| path_unsupported :
    opt_str_truthy (context_userId env) = true ->
    ~ allowed_type (content_type req) ->
    upload_image env req w = (error_response 415 "Unsupported Content-Type", w) ->
    upload_path env req w
| path_no_body :
    opt_str_truthy (context_userId env) = true ->
    allowed_type (content_type req) ->
    as_Buffer (req_body req) = [] ->
    upload_image env req w = (error_response 400 "Empty or invalid request body", w) ->
    upload_path env req w
| path_bad_magic bytes :
    opt_str_truthy (context_userId env) = true ->
    allowed_type (content_type req) ->
    req_body req = BBuffer bytes -> bytes <> [] ->
    validByMagic (content_type req) bytes = false ->
    upload_image env req w = (error_response 415 "Invalid image format", w) ->
    upload_path env req w
| path_media_down bytes e :
    opt_str_truthy (context_userId env) = true ->
    req_body req = BBuffer bytes ->
    validByMagic (content_type req) bytes = true ->
    media_answer env req = Throws e ->
    upload_image env req w =
      (error_response 400 "Failed to process image upload",
       called (console_error_call (js "Upload error:"))
         (called (media_upload_call (derived_mediaType (content_type req))
                    (data_url (content_type req) bytes)) w)) ->
    upload_path env req w
| path_registry_down bytes asset e :
    opt_str_truthy (context_userId env) = true ->
    req_body req = BBuffer bytes ->
    validByMagic (content_type req) bytes = true ->
    media_answer env req = Returns asset ->
    redis_error env = Some e ->
    upload_image env req w =
      (error_response 400 "Failed to process image upload",
       called (console_error_call (js "Upload error:"))
         (called (redis_hSet_call (narrowed (context_userId env)) (asset_mediaUrl asset)
                    (JSON.stringify
                       (asset_properties (stored_record env (content_type req) asset))))
            (called (media_upload_call (derived_mediaType (content_type req))
                       (data_url (content_type req) bytes)) w))) ->
    upload_path env req w
| path_stored bytes asset :
    opt_str_truthy (context_userId env) = true ->
    req_body req = BBuffer bytes ->
    validByMagic (content_type req) bytes = true ->
    media_answer env req = Returns asset ->
    redis_error env = None ->
    upload_image env req w =
      (respond 200
         (upload_body (narrowed (content_type req)) (length bytes)
            (if opt_str_truthy (first_value (x_file_name req))
             then first_value (x_file_name req) else None)),
       {| redis_db :=
            redis.hash_set (narrowed (context_userId env)) (asset_mediaUrl asset)
              (JSON.stringify
                 (asset_properties (stored_record env (content_type req) asset)))
              (redis_db w);
          trace :=
            trace w ++
            [media_upload_call (derived_mediaType (content_type req))
               (data_url (content_type req) bytes);
             redis_hSet_call (narrowed (context_userId env)) (asset_mediaUrl asset)
               (JSON.stringify
                  (asset_properties (stored_record env (content_type req) asset)))] |}) ->
    upload_path env req w.


(** Another caller. *)
Definition env_bob : Env :=
  {| context_userId := Some (js "t2_bob");
     media_service := media_ok "media-9" "https://i.redd.it/nine.png";
     redis_error := None;
     clock_iso := js "2024-01-03T00:00:00.000Z" |}.


(** The place of a character in the base64 alphabet. *)
Definition b64_index (c : N) : N :=
  if (65 <=? c) && (c <=? 90) then c - 65
  else if (97 <=? c) && (c <=? 122) then c - 71
  else if (48 <=? c) && (c <=? 57) then c + 4
  else if c =? 43 then 62
  else 63.

(** A picture and a text file as the browser hands them to the component,
    and the component before anything was chosen. *)
Definition cat_file : App.File :=
  {| App.name := js "cat.png"; App.type := js "image/png"; App.size := 10 |}.

Definition notes_file : App.File :=
  {| App.name := js "notes.txt"; App.type := js "text/plain"; App.size := 0 |}.

Definition text_request : Request :=
  {| content_type := Some (js "text/plain");
     x_file_name := HString (js "notes.txt");
     req_body := BOther true |}.

Definition idle : App.State :=
  {| App.dragActive := false;
     App.selectedFile := None;
     App.previewUrl := None;
     App.uploading := false;
     App.message := None;
     App.serverInfo := JSON.JNull |}.

Definition previewing : App.State :=
  {| App.dragActive := false;
     App.selectedFile := Some cat_file;
     App.previewUrl := Some (js "blob:1");
     App.uploading := false;
     App.message := Some (js "Upload successful");
     App.serverInfo := JSON.JNull |}.

Definition blob_url (file : App.File) : jsstring := js "blob:" ++ App.name file.

(** The signatures in the words of the format descriptions, read on the
    bytes alone and without the four checks of the source: PNG is the
    eight-byte signature at the start; JPEG is FF D8 at the start and
    FF D9 as the last two bytes; GIF is "GIF8" in bytes 0-3, '7' or '9' in
    byte 4 and 'a' in byte 5; WEBP is "RIFF" in bytes 0-3 and "WEBP" in
    bytes 8-11, whatever bytes 4-7 are. *)
Definition magic_signature (f : Format) (buf : list byte) : Prop :=
  match f with
  | Png => take 8 buf = png_signature
  | Jpeg => take 2 buf = [xff; xd8] /\ drop (length buf - 2) buf = [xff; xd9]
  | Gif =>
      take 4 buf = [x47; x49; x46; x38] /\
      (buf !! 4%nat = Some x37 \/ buf !! 4%nat = Some x39) /\
      buf !! 5%nat = Some x61
  | Webp => take 4 buf = riff /\ take 4 (drop 8 buf) = webp_tag
  end.

(** A small WEBP file: "RIFF", a chunk size, "WEBP" and two more bytes. *)
Definition webp_payload : list byte :=
  riff ++ [x1a; x00; x00; x00] ++ webp_tag ++ [x56; x50].

(** [req.headers[name]] as Node's HTTP parser hands it to the handler for
    a header such as X-File-Name, given the values of the request's header
    lines of that name in order: no line gives [undefined], one line gives
    its value, and each further line is appended to the string after a
    comma and a space.  (Node delivers an array for [set-cookie] only.) *)
Definition join_values (first : jsstring) (others : list jsstring) : jsstring :=
  foldl (fun joined value => joined ++ js ", " ++ value) first others.

Definition incoming_header (values : list jsstring) : HeaderValue :=
  match values with
  | [] => HUndefined
  | first :: others => HString (join_values first others)
  end.

(** An upload whose X-File-Name header was sent twice. *)
Definition two_names_request : Request :=
  {| content_type := Some (js "image/png");
     x_file_name := incoming_header [js "a.png"; js "b.png"];
     req_body := BBuffer (png_signature ++ [x00; x01]) |}.

(** * Properties *)

(** ** The definitions at work *)

Example base64_three_bytes : toString_base64 [x4d; x61; x6e] = js "TWFu".
Proof. reflexivity. Qed.

Example base64_two_bytes : toString_base64 [x4d; x61] = js "TWE=".
Proof. reflexivity. Qed.

Example base64_one_byte : toString_base64 [x4d] = js "TQ==".
Proof. reflexivity. Qed.

Example str_ltb_prefix : str_ltb (js "2024-01-01") (js "2024-01-01T10") = true.
Proof. reflexivity. Qed.

Example parse_array :
  JSON.parse (js " [1, -2.5e3, true, null, [], {} ] ")
  = Some (JSON.JArray
            [JSON.JNumber (JSON.mk_number false 1 0);
             JSON.JNumber (JSON.mk_number true 25 2);
             JSON.JBool true; JSON.JNull; JSON.JArray []; JSON.JObject []]).
Proof. vm_compute. reflexivity. Qed.

Example parse_escapes :
  JSON.parse (34 :: js "a\n\u00E9\/" ++ [34]) = Some (JSON.JString [97; 10; 233; 47]).
Proof. vm_compute. reflexivity. Qed.

Example parse_trailing_comma : JSON.parse (js "[1,]") = None.
Proof. reflexivity. Qed.

Example parse_leading_zero : JSON.parse (js "01") = None.
Proof. reflexivity. Qed.

Example parse_bare_word : JSON.parse (js "{oops") = None.
Proof. reflexivity. Qed.

Example stringify_one_member :
  JSON.stringify [(js "a", [120; 34; 10])]
  = 123 :: 34 :: js "a" ++ 34 :: 58 :: 34 :: js "x\" ++ 34 :: js "\n" ++ [34; 125].
Proof. vm_compute. reflexivity. Qed.

Example zero_is_falsy : surviving (js "0") = None /\ surviving (js "-0.0e7") = None.
Proof. split; reflexivity. Qed.

Example underflow_is_falsy : surviving (js "1e-400") = None.
Proof. vm_compute. reflexivity. Qed.

Example number_is_kept :
  surviving (js "42") = Some (JSON.JNumber (JSON.mk_number false 42 0)).
Proof. vm_compute. reflexivity. Qed.

Example sort_descending :
  Array.sort (fun a b : Z => Returns (if (a <? b)%Z then 1%Z else (-1)%Z)) [3; 1; 2; 3]%Z
  = Returns [3; 3; 2; 1]%Z.
Proof. reflexivity. Qed.

Example sort_stops_at_exception :
  Array.sort (fun a b : Z => if (a =? 0)%Z then Throws (js "TypeError") else Returns 1%Z)
    [3; 0; 2]%Z
  = Throws (js "TypeError").
Proof. reflexivity. Qed.

Example array_ToString :
  ToString plain_engine
    (JSON.JArray [JSON.JString (js "a"); JSON.JNull; JSON.JArray [JSON.JBool true];
                  JSON.JObject []])
  = Returns (js "a,,true,[object Object]").
Proof. reflexivity. Qed.

Example hidden_toString_throws :
  js_lt plain_engine None (Some (JSON.JObject [(js "toString", JSON.JNull)]))
  = Throws (js "TypeError").
Proof. reflexivity. Qed.

Example upload_then_list :
  (my_images plain_engine env_day1
     (upload_image env_day1 png_request fresh_world).2).1
  = respond 200
      (listUploads_body
         [asset_value
            {| mediaType := image; mediaUrl := js "https://i.redd.it/one.png";
               mediaId := js "media-1"; date := js "2024-01-01T10:00:00.000Z" |}]).
Proof. vm_compute. reflexivity. Qed.

(** ** The sniffer *)

Lemma at_eq_spec buf i b : at_eq buf i b = true <-> buf !! i = Some b.
Proof.
  unfold at_eq. destruct (buf !! i) as [x|]; split; intros H; try discriminate.
  - f_equal. by apply byte_dec_bl.
  - injection H as ->. by apply byte_dec_lb.
Qed.

Lemma Format_eqb_eq f g : Format_eqb f g = true <-> f = g.
Proof. destruct f, g; simpl; split; congruence. Qed.

Lemma strict_eq_mime f g : strict_eq (Some (mime f)) (match g with
    | Png => "image/png" | Jpeg => "image/jpeg"
    | Gif => "image/gif" | Webp => "image/webp" end) = Format_eqb f g.
Proof. destruct f, g; vm_compute; reflexivity. Qed.

(** The declared type selects the one check that is run. *)
Lemma validByMagic_mime f buf : validByMagic (Some (mime f)) buf = has_magic f buf.
Proof.
  unfold validByMagic.
  rewrite (strict_eq_mime f Png), (strict_eq_mime f Jpeg),
    (strict_eq_mime f Gif), (strict_eq_mime f Webp).
  destruct f; simpl; rewrite ?orb_false_r; reflexivity.
Qed.

(** The first byte already tells the four formats apart. *)
Lemma has_magic_first_byte f buf :
  has_magic f buf = true ->
  buf !! 0%nat = Some (match f with Png => x89 | Jpeg => xff | Gif => x47 | Webp => x52 end).
Proof.
  destruct f; simpl; unfold isPng, isJpeg, isGif, isWebp; intros H;
    repeat (apply andb_prop in H; destruct H as [H ?]);
    by apply at_eq_spec.
Qed.

Lemma magic_exclusive f g buf :
  has_magic f buf = true -> has_magic g buf = true -> f = g.
Proof.
  intros Hf Hg. apply has_magic_first_byte in Hf, Hg.
  rewrite Hf in Hg. destruct f, g; congruence.
Qed.

Lemma has_magic_length f buf : has_magic f buf = true -> (4 <= length buf)%nat.
Proof.
  destruct f; simpl; unfold isPng, isJpeg, isGif, isWebp; intros H;
    repeat (apply andb_prop in H; destruct H as [H ?]);
    apply Nat.leb_le in H; lia.
Qed.

Lemma validByMagic_inv ct buf :
  validByMagic ct buf = true -> exists f, ct = Some (mime f) /\ has_magic f buf = true.
Proof.
  unfold validByMagic, strict_eq. intros H.
  repeat (apply orb_prop in H; destruct H as [H|H]);
    apply andb_prop in H; destruct H as [Hc Hm];
    apply bool_decide_eq_true in Hc; subst ct.
  - by exists Png.
  - by exists Jpeg.
  - by exists Gif.
  - by exists Webp.
Qed.

Lemma isJpeg_spec buf :
  isJpeg buf = true <->
  take 2 buf = [xff; xd8] /\ drop (length buf - 2) buf = [xff; xd9].
Proof.
  unfold isJpeg. rewrite !andb_true_iff, !at_eq_spec, Nat.leb_le. split.
  - intros [[[[Hlen H0] H1] H2] H3]. split.
    + destruct buf as [|a [|b rest]]; simpl in *; try lia.
      by simplify_eq.
    + rewrite (drop_S _ _ _ H2).
      replace (S (length buf - 2)) with (length buf - 1)%nat by lia.
      rewrite (drop_S _ _ _ H3).
      by rewrite drop_ge by lia.
  - intros [Hhead Htail].
    destruct buf as [|a [|b rest]]; simpl in Hhead; try discriminate.
    injection Hhead as -> ->.
    destruct rest as [|c [|d rest]]; simpl in Htail; try discriminate.
    assert (H2 : drop (length (xff :: xd8 :: c :: d :: rest) - 2)
                   (xff :: xd8 :: c :: d :: rest) !! 0%nat = Some xff)
      by (simpl; simpl in Htail; by rewrite Htail).
    assert (H3 : drop (length (xff :: xd8 :: c :: d :: rest) - 2)
                   (xff :: xd8 :: c :: d :: rest) !! 1%nat = Some xd9)
      by (simpl; simpl in Htail; by rewrite Htail).
    rewrite lookup_drop in H2, H3.
    rewrite Nat.add_0_r in H2.
    replace (length (xff :: xd8 :: c :: d :: rest) - 2 + 1)%nat
      with (length (xff :: xd8 :: c :: d :: rest) - 1)%nat in H3 by (simpl; lia).
    repeat split; try done. simpl; lia.
Qed.

(** *** C6 *)

(** C6: a payload declared as image/jpeg passes the sniffer if and only if
    its first two bytes are FF D8 and its last two bytes are FF D9; a
    payload with the right header and another trailer is rejected. *)
Theorem jpeg_header_and_trailer (buf : list byte) :
  (validByMagic (Some (js "image/jpeg")) buf = true <->
   take 2 buf = [xff; xd8] /\ drop (length buf - 2) buf = [xff; xd9])
  /\ (take 2 buf = [xff; xd8] -> drop (length buf - 2) buf <> [xff; xd9] ->
      validByMagic (Some (js "image/jpeg")) buf = false).
Proof.
  change (Some (js "image/jpeg")) with (Some (mime Jpeg)).
  rewrite validByMagic_mime. simpl. split.
  - apply isJpeg_spec.
  - intros _ Hbad. apply not_true_is_false. intros H.
    apply isJpeg_spec in H. tauto.
Qed.

(** *** C7 *)

(** C7: a payload declared as image/png that starts with the eight bytes
    89 50 4E 47 0D 0A 1A 0A passes the sniffer whatever bytes follow. *)
Theorem png_trailing_bytes_ignored (trailing : list byte) :
  validByMagic (Some (js "image/png")) (png_signature ++ trailing) = true.
Proof.
  change (Some (js "image/png")) with (Some (mime Png)).
  rewrite validByMagic_mime. reflexivity.
Qed.

(** ** The upload handler, path by path *)

Lemma upload_image_unauthorized env req w :
  opt_str_truthy (context_userId env) = false ->
  upload_image env req w = (error_response 401 "Unauthorized", w).
Proof. intros H. unfold upload_image. by rewrite H. Qed.

Lemma allowed_type_guard ct :
  allowed_type ct ->
  negb (strict_eq ct "image/png") && negb (strict_eq ct "image/jpeg") &&
  negb (strict_eq ct "image/gif") && negb (strict_eq ct "image/webp") = false.
Proof. intros [f ->]. destruct f; vm_compute; reflexivity. Qed.

Lemma not_allowed_type_guard ct :
  ~ allowed_type ct ->
  negb (strict_eq ct "image/png") && negb (strict_eq ct "image/jpeg") &&
  negb (strict_eq ct "image/gif") && negb (strict_eq ct "image/webp") = true.
Proof.
  intros Hn.
  assert (H : forall f, ct <> Some (mime f)) by (intros f ->; apply Hn; by exists f).
  assert (Hp : ct <> Some (js "image/png")) by apply (H Png).
  assert (Hj : ct <> Some (js "image/jpeg")) by apply (H Jpeg).
  assert (Hg : ct <> Some (js "image/gif")) by apply (H Gif).
  assert (Hw : ct <> Some (js "image/webp")) by apply (H Webp).
  unfold strict_eq.
  by rewrite (bool_decide_eq_false_2 _ Hp), (bool_decide_eq_false_2 _ Hj),
    (bool_decide_eq_false_2 _ Hg), (bool_decide_eq_false_2 _ Hw).
Qed.

Lemma upload_image_unsupported_type env req w :
  opt_str_truthy (context_userId env) = true ->
  ~ allowed_type (content_type req) ->
  upload_image env req w = (error_response 415 "Unsupported Content-Type", w).
Proof.
  intros Hu Hn. unfold upload_image, upload_image_try, try_catch.
  rewrite Hu. simpl negb. cbv iota.
  by rewrite (not_allowed_type_guard _ Hn).
Qed.

Lemma upload_image_empty_body env req w :
  opt_str_truthy (context_userId env) = true ->
  allowed_type (content_type req) ->
  negb (body_truthy (req_body req)) || negb (isBuffer (req_body req)) ||
    (length (as_Buffer (req_body req)) =? 0)%nat = true ->
  upload_image env req w = (error_response 400 "Empty or invalid request body", w).
Proof.
  intros Hu Ha Hb. unfold upload_image, upload_image_try, try_catch.
  rewrite Hu. simpl negb. cbv iota.
  by rewrite (allowed_type_guard _ Ha), Hb.
Qed.

Lemma upload_image_bad_magic env req w bytes :
  opt_str_truthy (context_userId env) = true ->
  allowed_type (content_type req) ->
  req_body req = BBuffer bytes ->
  bytes <> [] ->
  validByMagic (content_type req) bytes = false ->
  upload_image env req w = (error_response 415 "Invalid image format", w).
Proof.
  intros Hu Ha Hb Hne Hm. unfold upload_image, upload_image_try, try_catch.
  rewrite Hu. simpl negb. cbv iota.
  rewrite (allowed_type_guard _ Ha), Hb. simpl.
  destruct bytes as [|b bytes]; [done|]. simpl.
  by rewrite Hm.
Qed.

(** Past validation the outcome is decided by the two external calls. *)
Lemma upload_image_run env req w bytes :
  opt_str_truthy (context_userId env) = true ->
  req_body req = BBuffer bytes ->
  validByMagic (content_type req) bytes = true ->
  upload_image env req w =
    let ct := content_type req in
    let uid := narrowed (context_userId env) in
    let w1 := called (media_upload_call (derived_mediaType ct) (data_url ct bytes)) w in
    match media_service env (derived_mediaType ct) (data_url ct bytes) with
    | Throws _ =>
        (error_response 400 "Failed to process image upload",
         called (console_error_call (js "Upload error:")) w1)
    | Returns asset =>
        let stored := JSON.stringify (asset_properties (stored_record env ct asset)) in
        let w2 := called (redis_hSet_call uid (asset_mediaUrl asset) stored) w1 in
        match redis_error env with
        | Some _ =>
            (error_response 400 "Failed to process image upload",
             called (console_error_call (js "Upload error:")) w2)
        | None =>
            (respond 200
               (upload_body (narrowed ct) (length bytes)
                  (if opt_str_truthy (first_value (x_file_name req))
                   then first_value (x_file_name req) else None)),
             {| redis_db := redis.hash_set uid (asset_mediaUrl asset) stored (redis_db w);
                trace := trace w2 |})
        end
    end.
Proof.
  intros Hu Hb Hm.
  destruct (validByMagic_inv _ _ Hm) as [f [Hct Hf]].
  pose proof (has_magic_length _ _ Hf) as Hlen.
  unfold upload_image, upload_image_try, try_catch.
  rewrite Hu. simpl negb. cbv iota.
  rewrite (allowed_type_guard _ (ex_intro _ f Hct)), Hb. simpl.
  destruct bytes as [|b0 bytes]; [simpl in Hlen; lia|].
  simpl Nat.eqb. cbv iota.
  rewrite Hm. simpl negb. cbv iota.
  unfold bind, media.upload, redis.hSet, ret, console_error.
  fold (derived_mediaType (content_type req)).
  fold (data_url (content_type req) (b0 :: bytes)).
  fold (first_value (x_file_name req)).
  destruct (media_service env _ _) as [asset|e]; [|reflexivity].
  fold (stored_record env (content_type req) asset).
  destruct (redis_error env) as [e|]; [reflexivity|].
  destruct (opt_str_truthy (first_value (x_file_name req))); reflexivity.
Qed.

(** Every run either goes through both external calls successfully, or
    answers something other than 200 and leaves the store as it was. *)
Lemma upload_image_cases env req w :
  (exists bytes asset,
    opt_str_truthy (context_userId env) = true /\
    req_body req = BBuffer bytes /\
    validByMagic (content_type req) bytes = true /\
    media_service env (derived_mediaType (content_type req))
      (data_url (content_type req) bytes) = Returns asset /\
    redis_error env = None) \/
  (status (upload_image env req w).1 <> 200%Z /\
   redis_db (upload_image env req w).2 = redis_db w).
Proof.
  destruct (opt_str_truthy (context_userId env)) eqn:Hu.
  2: { right. by rewrite upload_image_unauthorized. }
  destruct (req_body req) as [|bytes|t] eqn:Hb.
  1, 3: right; unfold upload_image, upload_image_try, try_catch, ret;
    rewrite Hu, Hb; simpl; rewrite ?orb_true_r;
    destruct (negb _ && _ && _ && _); done.
  destruct (validByMagic (content_type req) bytes) eqn:Hm.
  - rewrite (upload_image_run _ _ _ _ Hu Hb Hm). cbv zeta.
    destruct (media_service env _ _) as [asset|e] eqn:Hmedia; [|by right].
    destruct (redis_error env) as [e|] eqn:Hredis; [by right|].
    left. by exists bytes, asset.
  - right. unfold upload_image, upload_image_try, try_catch, ret.
    rewrite Hu, Hb. simpl.
    destruct (negb _ && _ && _ && _); [done|].
    destruct bytes as [|b0 bytes]; simpl; [done|].
    by rewrite Hm.
Qed.

(** A 200 can only come out of the last branch. *)
Lemma upload_image_success_inv env req w r w' :
  upload_image env req w = (r, w') ->
  status r = 200%Z ->
  exists bytes asset,
    opt_str_truthy (context_userId env) = true /\
    req_body req = BBuffer bytes /\
    validByMagic (content_type req) bytes = true /\
    media_service env (derived_mediaType (content_type req))
      (data_url (content_type req) bytes) = Returns asset /\
    redis_error env = None.
Proof.
  intros Hrun Hst.
  destruct (upload_image_cases env req w) as [H|[H _]]; [exact H|].
  rewrite Hrun in H. done.
Qed.

(** *** C5, upload side, and C2 *)

(** C2 (as the handler has it): for an authenticated caller and a body
    that carries no bytes (a zero-length [Buffer], or no [Buffer] at all),
    the response is 400 when the declared Content-Type is one of the four
    allowed MIME strings, and 415 when it is not: the declared type is
    checked before the body.  Nothing outside is called. *)
Theorem empty_body_rejected (env : Env) (req : Request) (w : World) :
  opt_str_truthy (context_userId env) = true ->
  as_Buffer (req_body req) = [] ->
  (allowed_type (content_type req) ->
   upload_image env req w = (error_response 400 "Empty or invalid request body", w)) /\
  (~ allowed_type (content_type req) ->
   upload_image env req w = (error_response 415 "Unsupported Content-Type", w)).
Proof.
  intros Hu Hb. split; intros Ha.
  - apply upload_image_empty_body; try done. rewrite Hb. simpl. apply orb_true_r.
  - by apply upload_image_unsupported_type.
Qed.

Lemma text_plain_not_allowed : ~ allowed_type (Some (js "text/plain")).
Proof. intros [f Hf]. destruct f; vm_compute in Hf; discriminate. Qed.

Lemma empty_body_rejected_witness :
  upload_image env_day1
    {| content_type := Some (js "image/gif"); x_file_name := HUndefined;
       req_body := BBuffer [] |} fresh_world
  = (error_response 400 "Empty or invalid request body", fresh_world)
  /\ upload_image env_day1 empty_text_request fresh_world
     = (error_response 415 "Unsupported Content-Type", fresh_world).
Proof.
  split.
  - apply (empty_body_rejected env_day1 _ fresh_world); [reflexivity | reflexivity |].
    by exists Gif.
  - apply (empty_body_rejected env_day1 _ fresh_world); [reflexivity | reflexivity |].
    apply text_plain_not_allowed.
Defined.

(** C2, as stated, fails: an authenticated caller, a zero-length body and
    the declared type text/plain: the answer is 415, not 400. *)
Lemma empty_body_text_plain_is_415 :
  opt_str_truthy (context_userId env_day1) = true /\
  req_body empty_text_request = BBuffer [] /\
  status (upload_image env_day1 empty_text_request fresh_world).1 = 415%Z /\
  status (upload_image env_day1 empty_text_request fresh_world).1 <> 400%Z.
Proof. vm_compute. repeat split; discriminate. Qed.

(** *** C1 *)

(** C1 (as the handler has it): when the media-store call succeeds and the
    registry write that follows throws, the exception reaches the handler's
    [catch]: the caller gets 400 "Failed to process image upload", an error
    is logged, the store is left as it was and the media-store call is not
    undone. *)
Theorem registry_write_failure_is_400
    (env : Env) (req : Request) (w : World) (bytes : list byte)
    (asset : MediaAsset) (e : jsstring) :
  opt_str_truthy (context_userId env) = true ->
  req_body req = BBuffer bytes ->
  validByMagic (content_type req) bytes = true ->
  media_service env (derived_mediaType (content_type req))
    (data_url (content_type req) bytes) = Returns asset ->
  redis_error env = Some e ->
  exists w',
    upload_image env req w = (error_response 400 "Failed to process image upload", w') /\
    redis_db w' = redis_db w /\
    trace w' = trace w ++
      [media_upload_call (derived_mediaType (content_type req))
         (data_url (content_type req) bytes);
       redis_hSet_call (narrowed (context_userId env)) (asset_mediaUrl asset)
         (JSON.stringify
            (asset_properties (stored_record env (content_type req) asset)));
       console_error_call (js "Upload error:")].
Proof.
  intros Hu Hb Hm Hmedia Hredis.
  rewrite (upload_image_run _ _ _ _ Hu Hb Hm). cbv zeta.
  rewrite Hmedia, Hredis.
  eexists. split; [reflexivity|]. split; [reflexivity|].
  simpl. by rewrite <- !app_assoc.
Qed.

Lemma registry_write_failure_is_400_witness :
  exists w',
    upload_image env_redis_down png_request fresh_world
    = (error_response 400 "Failed to process image upload", w') /\
    redis_db w' = ∅ /\ length (trace w') = 3%nat.
Proof.
  destruct (registry_write_failure_is_400 env_redis_down png_request fresh_world
              (png_signature ++ [x00; x01])
              {| asset_mediaId := js "media-1";
                 asset_mediaUrl := js "https://i.redd.it/one.png" |}
              (js "ECONNREFUSED"))
    as [w' [Hrun [Hdb Htr]]]; try reflexivity.
  exists w'. split; [exact Hrun|]. split; [exact Hdb|].
  rewrite Htr. reflexivity.
Defined.

(** C1, as stated, fails: the media store answers, the registry write
    throws, and the caller gets 400 instead of a success response. *)
Lemma registry_write_failure_not_success :
  media_service env_redis_down image
    (data_url (content_type png_request) (png_signature ++ [x00; x01]))
  = Returns {| asset_mediaId := js "media-1";
               asset_mediaUrl := js "https://i.redd.it/one.png" |} /\
  redis_error env_redis_down = Some (js "ECONNREFUSED") /\
  (upload_image env_redis_down png_request fresh_world).1
  = error_response 400 "Failed to process image upload" /\
  status (upload_image env_redis_down png_request fresh_world).1 <> 200%Z.
Proof. vm_compute. repeat split; discriminate. Qed.

(** *** C3 *)

(** The four checks of the source decide the four signatures. *)
Lemma has_magic_signature f buf : has_magic f buf = true <-> magic_signature f buf.
Proof.
  destruct f; simpl.
  - split.
    + unfold isPng. rewrite !andb_true_iff, !at_eq_spec. intros H.
      destruct H as [[[[[[[[_ H0] H1] H2] H3] H4] H5] H6] H7].
      do 8 (destruct buf as [|? buf]; [discriminate|]).
      simpl in *. by simplify_eq.
    + intros H. rewrite <- (take_drop 8 buf), H. reflexivity.
  - apply isJpeg_spec.
  - split.
    + unfold isGif. rewrite !andb_true_iff, orb_true_iff, !at_eq_spec. intros H.
      destruct H as [[[[[[_ H0] H1] H2] H3] H4] H5].
      do 4 (destruct buf as [|? buf]; [discriminate|]).
      simpl in *. by simplify_eq.
    + intros (H & H4 & H5).
      do 4 (destruct buf as [|? buf]; [discriminate|]).
      simpl in H. injection H as -> -> -> ->.
      destruct buf as [|b4 buf]; [by destruct H4|].
      destruct buf as [|b5 buf]; [discriminate|].
      simpl in H4, H5. injection H5 as ->.
      by destruct H4 as [H4|H4]; injection H4 as ->.
  - split.
    + unfold isWebp. rewrite !andb_true_iff, !at_eq_spec. intros H.
      destruct H as [[[[[[[[_ H0] H1] H2] H3] H8] H9] H10] H11].
      do 12 (destruct buf as [|? buf]; [discriminate|]).
      simpl in *. by simplify_eq.
    + intros [H1 H2].
      do 4 (destruct buf as [|? buf]; [discriminate|]).
      injection H1 as -> -> -> ->.
      do 4 (destruct buf as [|? buf]; [discriminate|]).
      do 4 (destruct buf as [|? buf]; [discriminate|]).
      injection H2 as -> -> -> ->. reflexivity.
Qed.

(** C3: for a byte sequence carrying the magic bytes of one of the four
    formats (the signature as the format descriptions word it), no other
    format's signature is present, and the sniffer accepts exactly when
    the declared type is that format's MIME type: of the 16 combinations
    the 4 matching ones pass and the 12 others are answered 415 "Invalid
    image format" with nothing called outside.  A matching upload goes on
    to the media store and is answered 200 when both external calls
    succeed. *)
Theorem declared_type_must_match_magic (declared magic : Format) (payload : list byte) :
  magic_signature magic payload ->
  (forall other, magic_signature other payload -> other = magic) /\
  validByMagic (Some (mime declared)) payload = Format_eqb declared magic /\
  forall (env : Env) (header : HeaderValue) (w : World),
    opt_str_truthy (context_userId env) = true ->
    let req := {| content_type := Some (mime declared); x_file_name := header;
                  req_body := BBuffer payload |} in
    if Format_eqb declared magic then
      status (upload_image env req w).1 <> 415%Z /\
      (forall asset,
         media_service env (derived_mediaType (content_type req))
           (data_url (content_type req) payload) = Returns asset ->
         redis_error env = None ->
         status (upload_image env req w).1 = 200%Z)
    else upload_image env req w = (error_response 415 "Invalid image format", w).
Proof.
  intros Hsig. pose proof (proj2 (has_magic_signature _ _) Hsig) as Hmagic.
  split.
  { intros other Ho. apply has_magic_signature in Ho.
    exact (magic_exclusive _ _ _ Ho Hmagic). }
  assert (Hv : validByMagic (Some (mime declared)) payload = Format_eqb declared magic).
  { rewrite validByMagic_mime.
    destruct (Format_eqb declared magic) eqn:E.
    - apply Format_eqb_eq in E. by subst.
    - apply not_true_is_false. intros Hd.
      rewrite (magic_exclusive _ _ _ Hd Hmagic) in E.
      by destruct magic. }
  split; [exact Hv|].
  intros env header w Hu req.
  destruct (Format_eqb declared magic) eqn:E.
  - rewrite (upload_image_run env req w payload Hu eq_refl Hv). cbv zeta.
    split.
    + destruct (media_service env _ _); [destruct (redis_error env)|]; done.
    + intros asset -> ->. reflexivity.
  - apply (upload_image_bad_magic env req w payload); try done.
    + by exists declared.
    + apply has_magic_length in Hmagic. destruct payload; simpl in *; [lia|done].
Qed.

Lemma declared_type_must_match_magic_witness :
  magic_signature Webp webp_payload /\
  status (upload_image env_day1
            {| content_type := Some (js "image/webp"); x_file_name := HUndefined;
               req_body := BBuffer webp_payload |} fresh_world).1 = 200%Z /\
  upload_image env_day1
    {| content_type := Some (js "image/gif"); x_file_name := HUndefined;
       req_body := BBuffer webp_payload |} fresh_world
  = (error_response 415 "Invalid image format", fresh_world).
Proof.
  assert (Hsig : magic_signature Webp webp_payload) by (split; reflexivity).
  split; [exact Hsig|]. split.
  - destruct (declared_type_must_match_magic Webp Webp webp_payload Hsig)
      as (_ & _ & Hrun).
    destruct (Hrun env_day1 HUndefined fresh_world eq_refl) as [_ Hok].
    apply (Hok {| asset_mediaId := js "media-1";
                  asset_mediaUrl := js "https://i.redd.it/one.png" |});
      reflexivity.
  - destruct (declared_type_must_match_magic Gif Webp webp_payload Hsig)
      as (_ & _ & Hrun).
    apply (Hrun env_day1 HUndefined fresh_world). reflexivity.
Defined.

(** *** C10 *)

Lemma join_values_not_empty others : forall first,
  first <> [] -> join_values first others <> [].
Proof.
  unfold join_values. induction others as [|v others IH]; intros first Hne; simpl.
  - exact Hne.
  - apply IH. by destruct first.
Qed.

(** C10, as stated, fails: an upload whose X-File-Name header was sent
    twice, with a.png and then b.png, reaches the handler with the two
    values joined in one string, and the 200 answer echoes the joined
    string and not the first value. *)
Lemma repeated_file_name_is_joined :
  x_file_name two_names_request = HString (js "a.png, b.png") /\
  (upload_image env_day1 two_names_request fresh_world).1
  = respond 200 (upload_body (js "image/png") 10 (Some (js "a.png, b.png"))) /\
  Some (js "a.png, b.png") <> Some (js "a.png").
Proof. vm_compute. repeat split; discriminate. Qed.

(** C10: a successful upload answers with a [fileName] exactly when the
    X-File-Name value the handler receives (its first element, were it an
    array) exists and is not the empty string, and the [fileName] is that
    value: an absent header or an empty one gives no [fileName].  A header
    sent once is echoed as it is; a header sent several times reaches the
    handler as one string, the values joined by a comma and a space, and
    that whole string is echoed. *)
Theorem file_name_echoed (env : Env) (req : Request) (w w' : World) (r : Response) :
  upload_image env req w = (r, w') ->
  status r = 200%Z ->
  exists mimeType bytes fileName,
    body r = upload_body mimeType bytes fileName /\
    (forall f, fileName = Some f <-> first_value (x_file_name req) = Some f /\ f <> []) /\
    (x_file_name req = HUndefined -> fileName = None) /\
    (x_file_name req = HString [] -> fileName = None) /\
    (forall f rest, f <> [] -> x_file_name req = HArray (f :: rest) -> fileName = Some f) /\
    (forall rest, x_file_name req = HArray ([] :: rest) -> fileName = None) /\
    (forall values, x_file_name req = incoming_header values ->
       (values = [] -> fileName = None) /\
       (values = [[]] -> fileName = None) /\
       (forall value, value <> [] -> values = [value] -> fileName = Some value) /\
       (forall first second others, values = first :: second :: others ->
          fileName = Some (join_values first (second :: others)))).
Proof.
  intros Hrun Hst.
  destruct (upload_image_success_inv _ _ _ _ _ Hrun Hst)
    as (bytes & asset & Hu & Hb & Hm & Hmedia & Hredis).
  rewrite (upload_image_run _ _ _ _ Hu Hb Hm) in Hrun. cbv zeta in Hrun.
  rewrite Hmedia, Hredis in Hrun. injection Hrun as <- <-.
  eexists _, _, _. split; [reflexivity|].
  assert (Hstr : forall s, s <> [] -> x_file_name req = HString s ->
            (if opt_str_truthy (first_value (x_file_name req))
             then first_value (x_file_name req) else None) = Some s).
  { intros s Hs ->. simpl. by destruct s. }
  split; [|split; [|split; [|split; [|split]]]].
  - destruct (x_file_name req) as [|[|c s]|[|[|c f] l]]; simpl; intros; naive_solver.
  - by intros ->.
  - by intros ->.
  - intros f rest Hf ->. simpl. by destruct f.
  - by intros rest ->.
  - intros values Hv. repeat split.
    + intros ->. by rewrite Hv.
    + intros ->. by rewrite Hv.
    + intros value Hne ->. by apply Hstr.
    + intros first second others ->. apply Hstr; [|exact Hv].
      simpl. apply join_values_not_empty. by destruct first.
Qed.

Lemma file_name_echoed_witness :
  exists mimeType bytes fileName,
    body (upload_image env_day1 png_request fresh_world).1
    = upload_body mimeType bytes fileName /\
    fileName = Some (js "cat.png").
Proof.
  destruct (file_name_echoed env_day1 png_request fresh_world
              (upload_image env_day1 png_request fresh_world).2
              (upload_image env_day1 png_request fresh_world).1)
    as (m & n & fn & Hbody & Hiff & _); [reflexivity | reflexivity |].
  exists m, n, fn. split; [exact Hbody|].
  apply Hiff. split; [reflexivity | discriminate].
Defined.

(** ** The history handler, path by path *)

Lemma my_images_unauthorized engine env w :
  opt_str_truthy (context_userId env) = false ->
  my_images engine env w = (error_response 401 "Unauthorized", w).
Proof. intros H. unfold my_images, try_catch. by rewrite H. Qed.

(** Once the store has answered, the outcome is decided by the sort. *)
Lemma my_images_run engine env w :
  opt_str_truthy (context_userId env) = true ->
  redis_error env = None ->
  my_images engine env w =
    let w' := called (redis_hGetAll_call (narrowed (context_userId env))) w in
    match
      Array.sort (by_date_desc engine)
        (filter (fun a => JSON.truthy a = true)
           (decode <$> Object.values
              (default ∅ (redis_db w !! narrowed (context_userId env)))))
    with
    | Returns assets => (respond 200 (listUploads_body assets), w')
    | Throws _ =>
        (error_response 400 "Failed to fetch uploads",
         called (console_error_call (js "List uploads error:")) w')
    end.
Proof.
  intros Hu Hr. unfold my_images, try_catch, bind, redis.hGetAll, ret, lift, console_error.
  rewrite Hu, Hr. simpl. by destruct (Array.sort _ _).
Qed.

Lemma my_images_redis_down engine env w e :
  opt_str_truthy (context_userId env) = true ->
  redis_error env = Some e ->
  my_images engine env w =
    (error_response 400 "Failed to fetch uploads",
     called (console_error_call (js "List uploads error:"))
       (called (redis_hGetAll_call (narrowed (context_userId env))) w)).
Proof.
  intros Hu Hr. unfold my_images, try_catch, bind, redis.hGetAll, ret, console_error.
  rewrite Hu, Hr. reflexivity.
Qed.

Lemma my_images_db engine env w : redis_db (my_images engine env w).2 = redis_db w.
Proof.
  destruct (opt_str_truthy (context_userId env)) eqn:Hu.
  - destruct (redis_error env) as [e|] eqn:Hr.
    + by rewrite (my_images_redis_down _ _ _ e).
    + rewrite my_images_run by done. cbv zeta. by destruct (Array.sort _ _).
  - by rewrite my_images_unauthorized.
Qed.

(** *** C5 *)

(** C5: a request without caller identity (no [userId], or an empty one) is
    answered 401 by both endpoints and leaves the world as it was: the
    store is untouched and no call to the media store or to the key-value
    store, read or write, is added to the trace. *)
Theorem unauthenticated_is_401_without_calls
    (engine : Numerics) (env : Env) (req : Request) (w : World) :
  opt_str_truthy (context_userId env) = false ->
  upload_image env req w = (error_response 401 "Unauthorized", w) /\
  my_images engine env w = (error_response 401 "Unauthorized", w) /\
  status (upload_image env req w).1 = 401%Z /\
  status (my_images engine env w).1 = 401%Z /\
  trace (upload_image env req w).2 = trace w /\
  trace (my_images engine env w).2 = trace w.
Proof.
  intros H.
  rewrite (upload_image_unauthorized _ _ _ H), (my_images_unauthorized _ _ _ H).
  done.
Qed.

Lemma unauthenticated_is_401_without_calls_witness :
  upload_image env_anonymous png_request fresh_world
  = (error_response 401 "Unauthorized", fresh_world) /\
  my_images plain_engine env_anonymous fresh_world
  = (error_response 401 "Unauthorized", fresh_world).
Proof.
  destruct (unauthenticated_is_401_without_calls plain_engine
              env_anonymous png_request fresh_world) as (H1 & H2 & _);
    [reflexivity|].
  split; [exact H1 | exact H2].
Defined.

(** ** Strings under [<] *)

Lemma str_ltb_irrefl a : str_ltb a a = false.
Proof.
  induction a as [|x a IH]; simpl; [done|].
  by rewrite N.ltb_irrefl.
Qed.

Lemma str_ltb_asym a b : str_ltb a b = true -> str_ltb b a = false.
Proof.
  revert b. induction a as [|x a IH]; intros [|y b]; simpl; try done.
  destruct (N.ltb_spec x y), (N.ltb_spec y x); try done; try lia.
  apply IH.
Qed.

Lemma str_ltb_ntrans a b c :
  str_ltb a b = false -> str_ltb b c = false -> str_ltb a c = false.
Proof.
  revert b c. induction a as [|x a IH]; intros [|y b] [|z c]; simpl; try done.
  destruct (N.ltb_spec x y), (N.ltb_spec y x), (N.ltb_spec y z), (N.ltb_spec z y),
    (N.ltb_spec x z), (N.ltb_spec z x); try done; try lia.
  apply IH.
Qed.

(** ** [Array.prototype.sort] *)

Lemma StronglySorted_lookup {A} (R : relation A) l i j x y :
  StronglySorted R l -> l !! i = Some x -> l !! j = Some y -> (i < j)%nat -> R x y.
Proof.
  intros Hs Hi Hj Hlt.
  rewrite <- (take_drop j l) in Hs.
  apply (StronglySorted_app_1_elem_of R _ _ x y Hs).
  - apply list_elem_of_lookup. exists i. by rewrite lookup_take_lt.
  - apply list_elem_of_lookup. exists 0%nat. by rewrite lookup_drop, Nat.add_0_r.
Qed.

Section SortFacts.
Context {A : Type} (comparefn : A -> A -> Outcome Z).

(** Whatever the comparator answers, a sort that returns has only moved
    the elements. *)
Lemma insert_Permutation e l r :
  Array.insert comparefn e l = Returns r -> r ≡ₚ e :: l.
Proof.
  revert r. induction l as [|t l IH]; intros r H; simpl in H.
  - by injection H as <-.
  - destruct (comparefn t e) as [order|err]; [|done].
    destruct (0 <? order)%Z.
    + destruct (Array.insert comparefn e l) as [r'|]; [|done].
      injection H as <-. rewrite (IH r' eq_refl). apply perm_swap.
    + by injection H as <-.
Qed.

Lemma insert_all_Permutation a : forall s r,
  Array.insert_all comparefn a s = Returns r -> r ≡ₚ a ++ s.
Proof.
  induction a as [|x a IH]; intros s r H; simpl in H.
  - by injection H as <-.
  - destruct (Array.insert comparefn x s) as [s'|] eqn:E; [|done].
    rewrite (IH _ _ H), (insert_Permutation _ _ _ E).
    symmetry. apply Permutation_middle.
Qed.

Lemma sort_Permutation l r : Array.sort comparefn l = Returns r -> r ≡ₚ l.
Proof.
  unfold Array.sort.
  destruct (Array.insert_all comparefn l []) as [s|] eqn:E; [|done].
  intros [= <-]. rewrite <- Permutation_rev, (insert_all_Permutation _ _ _ E).
  by rewrite app_nil_r.
Qed.

(** On a domain [D] where the comparator throws nothing and answers [c],
    the sort returns. *)
Context (c : A -> A -> Z) (D : A -> Prop).
Hypothesis comparefn_returns :
  forall x y, D x -> D y -> comparefn x y = Returns (c x y).

Lemma insert_returns e l :
  D e -> Forall D l -> exists r, Array.insert comparefn e l = Returns r.
Proof.
  intros He Hl. induction Hl as [|t l Ht Hl IH]; simpl; [eauto|].
  rewrite comparefn_returns by done.
  destruct (0 <? c t e)%Z; [|eauto].
  destruct IH as [r ->]. eauto.
Qed.

Lemma insert_all_returns a : forall s,
  Forall D a -> Forall D s -> exists r, Array.insert_all comparefn a s = Returns r.
Proof.
  induction a as [|x a IH]; intros s Ha Hs; simpl; [eauto|].
  apply Forall_cons in Ha as [Hx Ha].
  destruct (insert_returns x s Hx Hs) as [s' E]. rewrite E.
  apply IH; [done|].
  rewrite (insert_Permutation _ _ _ E). by constructor.
Qed.

Lemma sort_returns l :
  Forall D l -> exists r, Array.sort comparefn l = Returns r.
Proof.
  intros Hl. unfold Array.sort.
  destruct (insert_all_returns l [] Hl (List.Forall_nil _)) as [s ->]. eauto.
Qed.

(** When moreover asking to swap is asymmetric and its negation is
    transitive, the sort leaves no pair out of order. *)
Hypothesis asym : forall x y, D x -> D y -> (0 < c x y)%Z -> in_order c y x.
Hypothesis ntrans :
  forall x y z, D x -> D y -> D z -> in_order c x y -> in_order c y z -> in_order c x z.

Lemma insert_sorted e l : forall r,
  D e -> Forall D l ->
  StronglySorted (flip (in_order c)) l ->
  Array.insert comparefn e l = Returns r ->
  StronglySorted (flip (in_order c)) r.
Proof.
  induction l as [|t l IH]; intros r He Hl Hs H; simpl in H.
  - injection H as <-. repeat constructor.
  - apply StronglySorted_cons in Hs as [Ht Hs].
    apply Forall_cons in Hl as [Dt Dl].
    rewrite comparefn_returns in H by done.
    destruct (0 <? c t e)%Z eqn:E.
    + destruct (Array.insert comparefn e l) as [r'|] eqn:Er; [|done].
      injection H as <-.
      apply StronglySorted_cons. split; [|by apply IH].
      rewrite (insert_Permutation _ _ _ Er). constructor; [|done].
      apply Z.ltb_lt in E. by apply asym.
    + injection H as <-. apply Z.ltb_ge in E.
      assert (Hte : in_order c t e) by (unfold in_order; lia).
      apply StronglySorted_cons. split.
      * constructor; [done|].
        rewrite Forall_forall in Ht, Dl |- *. intros z Hz.
        unfold flip in *. apply (ntrans z t e); auto.
      * apply StronglySorted_cons. done.
Qed.

Lemma insert_all_sorted a : forall s r,
  Forall D a -> Forall D s ->
  StronglySorted (flip (in_order c)) s ->
  Array.insert_all comparefn a s = Returns r ->
  StronglySorted (flip (in_order c)) r.
Proof.
  induction a as [|x a IH]; intros s r Ha Hs Hsorted H; simpl in H.
  - by injection H as <-.
  - apply Forall_cons in Ha as [Hx Ha].
    destruct (Array.insert comparefn x s) as [s'|] eqn:E; [|done].
    apply (IH s' r); try done.
    + rewrite (insert_Permutation _ _ _ E). by constructor.
    + by apply (insert_sorted x s).
Qed.

Lemma sort_sorted l r :
  Forall D l -> Array.sort comparefn l = Returns r -> StronglySorted (in_order c) r.
Proof.
  intros Hl. unfold Array.sort.
  destruct (Array.insert_all comparefn l []) as [s|] eqn:E; [|done].
  intros [= <-].
  pose proof (insert_all_sorted l [] s Hl (List.Forall_nil _) (SSorted_nil _) E) as Hs.
  clear E. induction Hs as [|x k Hs IH Hx]; simpl; [constructor|].
  apply StronglySorted_app_2; [|done|repeat constructor].
  intros x1 x2 H1 H2. apply list_elem_of_singleton in H2 as ->.
  rewrite Forall_forall in Hx. apply Hx.
  apply list_elem_of_In, in_rev. by apply list_elem_of_In in H1.
Qed.
End SortFacts.

(** ** JSON: what is written can be read back, and the fuel is enough *)

Section JSONFacts.
Import JSON.

Lemma hex_value_hex_digit n : n < 16 -> hex_value (hex_digit n) = Some n.
Proof.
intros H. destruct n as [|p]; [reflexivity|].
do 4 (destruct p as [p|p|]; try reflexivity); lia.
Qed.

Lemma hex4_unicode_escape c :
c < 65536 ->
hex4 (hex_digit (c / 4096 mod 16)) (hex_digit (c / 256 mod 16))
     (hex_digit (c / 16 mod 16)) (hex_digit (c mod 16)) = Some c.
Proof.
intros H. unfold hex4.
rewrite !hex_value_hex_digit by (apply N.mod_lt; lia).
f_equal.
change 4096 with (16 * 16 * 16). change 256 with (16 * 16).
rewrite <- !N.Div0.div_div.
pose proof (N.div_mod c 16 ltac:(lia)) as H1.
pose proof (N.div_mod (c / 16) 16 ltac:(lia)) as H2.
pose proof (N.div_mod (c / 16 / 16) 16 ltac:(lia)) as H3.
assert (H4 : c / 16 / 16 / 16 < 16).
{ rewrite !N.Div0.div_div. apply N.Div0.div_lt_upper_bound. simpl. lia. }
rewrite (N.mod_small _ _ H4).
lia.
Qed.

Lemma string_chars_escape c tail :
c < 65536 ->
string_chars (unicode_escape c ++ tail) =
  match string_chars tail with
  | Some (cs, r) => Some (c :: cs, r)
  | None => None
  end.
Proof.
intros H. unfold unicode_escape. simpl.
by rewrite hex4_unicode_escape.
Qed.

Lemma string_chars_plain c tail :
(c =? 34) = false -> (c =? 92) = false -> (c <? 32) = false ->
string_chars (c :: tail) =
  match string_chars tail with
  | Some (cs, r) => Some (c :: cs, r)
  | None => None
  end.
Proof. intros H1 H2 H3. simpl. by rewrite H1, H2, H3. Qed.

Lemma quote_chars_cons c s :
quote_chars (c :: s) =
  if c =? 8 then 92 :: 98 :: quote_chars s
  else if c =? 9 then 92 :: 116 :: quote_chars s
  else if c =? 10 then 92 :: 110 :: quote_chars s
  else if c =? 12 then 92 :: 102 :: quote_chars s
  else if c =? 13 then 92 :: 114 :: quote_chars s
  else if c =? 34 then 92 :: 34 :: quote_chars s
  else if c =? 92 then 92 :: 92 :: quote_chars s
  else if c <? 32 then unicode_escape c ++ quote_chars s
  else if is_leading_surrogate c then
    match s with
    | d :: s' =>
        if is_trailing_surrogate d then c :: d :: quote_chars s'
        else unicode_escape c ++ quote_chars s
    | [] => unicode_escape c
    end
  else if is_trailing_surrogate c then unicode_escape c ++ quote_chars s
  else c :: quote_chars s.
Proof. reflexivity. Qed.

Lemma leading_surrogate_range c : is_leading_surrogate c = true -> 32 <= c < 65536.
Proof.
unfold is_leading_surrogate. intros [H1%N.leb_le H2%N.leb_le]%andb_true_iff. lia.
Qed.

Lemma trailing_surrogate_range c :
is_trailing_surrogate c = true -> 93 <= c < 65536.
Proof.
unfold is_trailing_surrogate. intros [H1%N.leb_le H2%N.leb_le]%andb_true_iff. lia.
Qed.

Lemma string_chars_quote_chars s rest :
string_chars (quote_chars s ++ 34 :: rest) = Some (s, rest).
Proof.
remember (length s) as n eqn:Hn.
revert s Hn. induction (lt_wf n) as [n _ IH]. intros s Hn.
destruct s as [|c s]; [reflexivity|].
assert (IHs : string_chars (quote_chars s ++ 34 :: rest) = Some (s, rest)).
{ apply (IH (length s)); [subst n; simpl; lia | reflexivity]. }
rewrite quote_chars_cons.
destruct (N.eqb_spec c 8) as [->|N8]; [simpl; by rewrite IHs|].
destruct (N.eqb_spec c 9) as [->|N9]; [simpl; by rewrite IHs|].
destruct (N.eqb_spec c 10) as [->|N10]; [simpl; by rewrite IHs|].
destruct (N.eqb_spec c 12) as [->|N12]; [simpl; by rewrite IHs|].
destruct (N.eqb_spec c 13) as [->|N13]; [simpl; by rewrite IHs|].
destruct (N.eqb_spec c 34) as [->|N34]; [simpl; by rewrite IHs|].
destruct (N.eqb_spec c 92) as [->|N92]; [simpl; by rewrite IHs|].
destruct (N.ltb_spec c 32) as [L32|G32].
{ rewrite <- app_assoc, string_chars_escape by lia. by rewrite IHs. }
assert (P34 : (c =? 34) = false) by (by apply N.eqb_neq).
assert (P92 : (c =? 92) = false) by (by apply N.eqb_neq).
assert (P32 : (c <? 32) = false) by (by apply N.ltb_ge).
destruct (is_leading_surrogate c) eqn:EL.
- apply leading_surrogate_range in EL.
  destruct s as [|d s].
  + rewrite string_chars_escape by lia. reflexivity.
  + destruct (is_trailing_surrogate d) eqn:ET.
    * apply trailing_surrogate_range in ET.
      rewrite <- !app_comm_cons.
      rewrite string_chars_plain by done.
      rewrite string_chars_plain
        by (try apply N.eqb_neq; try apply N.ltb_ge; lia).
      rewrite (IH (length s)); [done | subst n; simpl; lia | done].
    * rewrite <- app_assoc, string_chars_escape by lia. by rewrite IHs.
- destruct (is_trailing_surrogate c) eqn:ET.
  + apply trailing_surrogate_range in ET.
    rewrite <- app_assoc, string_chars_escape by lia. by rewrite IHs.
  + rewrite <- app_comm_cons, string_chars_plain by done. by rewrite IHs.
Qed.

Lemma string_chars_QuoteJSONString s rest :
exists tail, QuoteJSONString s ++ rest = 34 :: tail /\
             string_chars tail = Some (s, rest).
Proof.
exists (quote_chars s ++ 34 :: rest). split.
- unfold QuoteJSONString. simpl. by rewrite <- app_assoc.
- apply string_chars_quote_chars.
Qed.

Lemma string_chars_quoted s rest :
string_chars ((quote_chars s ++ [34]) ++ rest) = Some (s, rest).
Proof. rewrite <- app_assoc. apply string_chars_quote_chars. Qed.

Lemma parse_value_string fuel s rest :
parse_value (S fuel) (QuoteJSONString s ++ rest) = Ok (JString s) rest.
Proof. unfold QuoteJSONString. simpl. by rewrite string_chars_quoted. Qed.

Lemma parse_members_comma fuel k v rest acc :
parse_members (S (S fuel)) (QuoteJSONString k ++ 58 :: QuoteJSONString v ++ 44 :: rest) acc
= parse_members (S fuel) rest ((k, JString v) :: acc).
Proof.
unfold QuoteJSONString. simpl.
rewrite string_chars_quoted. simpl.
by rewrite string_chars_quoted.
Qed.

Lemma parse_members_close fuel k v rest acc :
parse_members (S (S fuel)) (QuoteJSONString k ++ 58 :: QuoteJSONString v ++ 125 :: rest) acc
= Ok (JObject (rev ((k, JString v) :: acc))) rest.
Proof.
unfold QuoteJSONString. simpl.
rewrite string_chars_quoted. simpl.
by rewrite string_chars_quoted.
Qed.

Lemma parse_members_join ms : forall acc fuel rest,
ms <> [] -> (length ms < fuel)%nat ->
parse_members fuel (join_members ms ++ 125 :: rest) acc
= Ok (JObject (rev acc ++ map (fun kv => (kv.1, JString kv.2)) ms)) rest.
Proof.
induction ms as [|[k v] ms IH]; intros acc fuel rest Hne Hfuel; [done|].
destruct fuel as [|[|fuel]]; simpl in Hfuel; try lia.
destruct ms as [|m ms].
- change (join_members [(k, v)]) with (QuoteJSONString k ++ 58 :: QuoteJSONString v).
  rewrite <- app_assoc, <- app_comm_cons.
  rewrite parse_members_close. reflexivity.
- change (join_members ((k, v) :: m :: ms))
    with (QuoteJSONString k ++ 58 :: QuoteJSONString v ++ 44 :: join_members (m :: ms)).
  rewrite <- app_assoc, <- app_comm_cons, <- app_assoc, <- app_comm_cons.
  rewrite parse_members_comma.
  rewrite IH by (simpl in *; done || lia).
  simpl. by rewrite <- app_assoc.
Qed.

Lemma join_members_length ms : (length ms <= length (join_members ms))%nat.
Proof.
induction ms as [|[k v] ms IH]; [done|].
destruct ms as [|m ms].
- simpl. lia.
- change (join_members ((k, v) :: m :: ms))
    with (QuoteJSONString k ++ 58 :: QuoteJSONString v ++ 44 :: join_members (m :: ms)).
  unfold QuoteJSONString. simpl in *. rewrite !length_app. simpl.
  rewrite !length_app. simpl. lia.
Qed.

Lemma parse_stringify ms :
parse (stringify ms) = Some (JObject (map (fun kv => (kv.1, JString kv.2)) ms)).
Proof.
unfold parse, stringify.
destruct ms as [|[k v] ms]; [reflexivity|].
pose proof (join_members_length ((k, v) :: ms)) as Hlen.
remember (join_members ((k, v) :: ms)) as text eqn:Htext.
assert (Hfuel : exists fuel, (2 * length (123 :: text ++ [125])%N + 2)%nat = S fuel /\
                             (length ((k, v) :: ms) < fuel)%nat).
{ eexists. split; [simpl; reflexivity|]. simpl in *. rewrite length_app. simpl. lia. }
destruct Hfuel as [fuel [-> Hfuel]].
assert (Hhead : exists tail, text = 34 :: tail).
{ subst text. destruct ms as [|m ms]; simpl; eauto. }
destruct Hhead as [tail Htail].
simpl. rewrite Htail. simpl. rewrite app_comm_cons, <- Htail.
subst text. rewrite parse_members_join by done.
reflexivity.
Qed.

(** *** Fuel *)

Lemma skip_ws_length s : (length (skip_ws s) <= length s)%nat.
Proof. induction s as [|c s IH]; simpl; [lia|]. destruct (is_ws c); simpl; lia. Qed.

Lemma string_chars_length s : forall cs r,
string_chars s = Some (cs, r) -> (length r < length s)%nat.
Proof.
remember (length s) as n eqn:Hn. revert s Hn.
induction (lt_wf n) as [n _ IH]. intros s Hn cs r H. subst n.
assert (IH' : forall s' cs' r', (length s' < length s)%nat ->
          string_chars s' = Some (cs', r') -> (length r' < length s')%nat).
{ intros s' cs' r' Hlt H'. apply (IH (length s') ltac:(lia) s' eq_refl cs' r' H'). }
clear IH.
destruct s as [|c s]; simpl in H; [done|].
repeat (case_match; simplify_eq; try done);
  repeat match goal with
  | H : string_chars _ = Some _ |- _ => apply IH' in H; simpl in *; [|lia]
  end; simpl in *; lia.
Qed.

Lemma digits_length s : forall acc n a k r,
digits s acc n = (a, k, r) -> (length r <= length s)%nat.
Proof.
induction s as [|c s IH]; intros acc n a k r H; simpl in H.
- by simplify_eq.
- destruct (is_digit c).
  + apply IH in H. simpl. lia.
  + by simplify_eq.
Qed.

Lemma frac_exp_length ng m s n r :
frac_exp ng m s = Some (n, r) -> (length r <= length s)%nat.
Proof.
unfold frac_exp. intros H.
repeat (case_match; simplify_eq; try done);
  repeat match goal with
  | H : digits _ _ _ = _ |- _ => apply digits_length in H
  end; simpl in *; lia.
Qed.

Lemma number_token_length s n r :
number_token s = Some (n, r) -> (length r < length s)%nat.
Proof.
unfold number_token. intros H.
repeat (case_match; simplify_eq; try done);
  repeat match goal with
  | H : digits (?c :: _) _ _ = _, Hd : is_digit ?c = true |- _ =>
      simpl in H; rewrite Hd in H
  | H : digits _ _ _ = _ |- _ => apply digits_length in H
  | H : frac_exp _ _ _ = _ |- _ => apply frac_exp_length in H
  end; simpl in *; lia.
Qed.

Lemma strip_prefix_length p : forall s r,
strip_prefix p s = Some r -> length s = (length p + length r)%nat.
Proof.
induction p as [|x p IH]; intros [|y s] r H; simpl in *; simplify_eq; try done.
destruct (x =? y); [|done]. apply IH in H. lia.
Qed.

Ltac length_facts IHv IHe IHm :=
repeat match goal with
| H : skip_ws ?s = _ |- _ =>
    let L := fresh "L" in
    pose proof (skip_ws_length s) as L; rewrite H in L; clear H
| H : string_chars _ = Some _ |- _ => apply string_chars_length in H
| H : number_token _ = Some _ |- _ => apply number_token_length in H
| H : strip_prefix _ _ = Some _ |- _ => apply strip_prefix_length in H
| H : parse_value _ _ = Ok _ _ |- _ => apply IHv in H
| H : parse_elements _ _ _ = Ok _ _ |- _ => apply IHe in H
| H : parse_members _ _ _ = Ok _ _ |- _ => apply IHm in H
end.

Lemma parse_consumes fuel :
(forall s v r, parse_value fuel s = Ok v r -> (length r < length s)%nat) /\
(forall s acc v r, parse_elements fuel s acc = Ok v r -> (length r < length s)%nat) /\
(forall s acc v r, parse_members fuel s acc = Ok v r -> (length r < length s)%nat).
Proof.
induction fuel as [|fuel (IHv & IHe & IHm)]; [by repeat split|].
repeat split.
- intros s v r H. simpl in H.
  repeat (case_match; simplify_eq; try done);
    length_facts IHv IHe IHm; simpl in *; lia.
- intros s acc v r H. simpl in H.
  repeat (case_match; simplify_eq; try done);
    length_facts IHv IHe IHm; simpl in *; lia.
- intros s acc v r H. simpl in H.
  repeat (case_match; simplify_eq; try done);
    length_facts IHv IHe IHm; simpl in *; lia.
Qed.

Ltac fuel_case IHv IHe IHm Cv Ce Cm :=
first
[ done
| match goal with
  | H : parse_value _ _ = OutOfFuel |- _ => apply IHv in H; [done|]
  | H : parse_elements _ _ _ = OutOfFuel |- _ => apply IHe in H; [done|]
  | H : parse_members _ _ _ = OutOfFuel |- _ => apply IHm in H; [done|]
  end; length_facts Cv Ce Cm; simpl in *; lia ].

Lemma parse_fuel fuel :
(forall s, (2 * length s < fuel)%nat -> parse_value fuel s <> OutOfFuel) /\
(forall s acc, (2 * length s + 1 < fuel)%nat -> parse_elements fuel s acc <> OutOfFuel) /\
(forall s acc, (2 * length s + 1 < fuel)%nat -> parse_members fuel s acc <> OutOfFuel).
Proof.
induction fuel as [|fuel (IHv & IHe & IHm)]; [repeat split; intros; lia|].
destruct (parse_consumes fuel) as (Cv & Ce & Cm).
repeat split.
- intros s Hlen H. simpl in H.
  repeat (case_match; simplify_eq; try done); fuel_case IHv IHe IHm Cv Ce Cm.
- intros s acc Hlen H. simpl in H.
  repeat (case_match; simplify_eq; try done); fuel_case IHv IHe IHm Cv Ce Cm.
- intros s acc Hlen H. simpl in H.
  repeat (case_match; simplify_eq; try done); fuel_case IHv IHe IHm Cv Ce Cm.
Qed.

Lemma parse_value_fuel s : parse_value (2 * length s + 2) s <> OutOfFuel.
Proof. apply parse_fuel. lia. Qed.

(** [JSON.parse] returns [None] only on a syntax error: the text holds no
  value, or something other than white space follows the value. *)
Lemma parse_None_is_SyntaxError text :
parse text = None ->
parse_value (2 * length text + 2) text = SyntaxError \/
exists v rest,
  parse_value (2 * length text + 2) text = Ok v rest /\ skip_ws rest <> [].
Proof.
unfold parse. pose proof (parse_value_fuel text) as Hfuel.
destruct (parse_value _ text) as [v rest| |]; [|by left|done].
intros H. right. exists v, rest. split; [done|].
by destruct (skip_ws rest).
Qed.

End JSONFacts.

(** ** What the registry holds *)

Lemma decode_stringify a : decode (JSON.stringify (asset_properties a)) = asset_value a.
Proof. unfold decode. by rewrite parse_stringify. Qed.

Lemma asset_value_date a :
  JSON.get (asset_value a) (js "date") = Some (JSON.JString (date a)).
Proof. reflexivity. Qed.


Lemma derived_mediaType_cases ct :
  derived_mediaType ct = image \/ derived_mediaType ct = gif.
Proof. unfold derived_mediaType. destruct (strict_eq ct "image/gif"); auto. Qed.

(** A successful upload, spelled out. *)
Lemma upload_image_success env req w r w' :
  upload_image env req w = (r, w') ->
  status r = 200%Z ->
  exists asset,
    opt_str_truthy (context_userId env) = true /\
    media_answer env req = Returns asset /\
    redis_db w' =
      redis.hash_set (narrowed (context_userId env)) (asset_mediaUrl asset)
        (JSON.stringify (asset_properties (stored_record env (content_type req) asset)))
        (redis_db w).
Proof.
  intros Hrun Hst.
  destruct (upload_image_success_inv _ _ _ _ _ Hrun Hst)
    as (bytes & asset & Hu & Hb & Hm & Hmedia & Hredis).
  rewrite (upload_image_run _ _ _ _ Hu Hb Hm) in Hrun. cbv zeta in Hrun.
  rewrite Hmedia, Hredis in Hrun. injection Hrun as <- <-.
  exists asset. unfold media_answer. rewrite Hb. simpl. done.
Qed.

Lemma hash_set_lookup (key field value : jsstring)
    (db : gmap jsstring (gmap jsstring jsstring)) (k : jsstring)
    (h : gmap jsstring jsstring) (f raw : jsstring) :
  redis.hash_set key field value db !! k = Some h -> h !! f = Some raw ->
  (k = key /\ f = field /\ raw = value) \/
  exists h0 : gmap jsstring jsstring, db !! k = Some h0 /\ h0 !! f = Some raw.
Proof.
  unfold redis.hash_set. intros Hk Hf.
  destruct (decide (key = k)) as [->|Hne].
  - rewrite lookup_insert_eq in Hk. injection Hk as <-.
    destruct (decide (field = f)) as [->|Hnf].
    + rewrite lookup_insert_eq in Hf. injection Hf as <-. by left.
    + rewrite lookup_insert_ne in Hf by done. right.
      destruct (db !! k) as [h0|]; simpl in Hf.
      * by exists h0.
      * by rewrite lookup_empty in Hf.
  - rewrite lookup_insert_ne in Hk by done. right. by exists h.
Qed.

Lemma upload_image_preserves_records env req w :
  records_well_typed w -> records_well_typed (upload_image env req w).2.
Proof.
  intros Hw.
  destruct (upload_image_cases env req w) as [Hok|[_ Hdb]].
  - destruct Hok as (bytes & asset & Hu & Hb & Hm & Hmedia & Hredis).
    rewrite (upload_image_run _ _ _ _ Hu Hb Hm). cbv zeta.
    rewrite Hmedia, Hredis. simpl.
    intros key h field raw Hk Hf. simpl in Hk.
    destruct (hash_set_lookup _ _ _ _ _ _ _ _ Hk Hf) as [(-> & -> & ->)|(h0 & Hk0 & Hf0)].
    + eexists. split; [reflexivity|]. split; [reflexivity|].
      apply derived_mediaType_cases.
    + by apply (Hw key h0).
  - intros key h field raw Hk Hf. rewrite Hdb in Hk. by apply (Hw key h).
Qed.

(** The invariant of the registry. *)
Lemma reachable_records w : reachable w -> records_well_typed w.
Proof.
  induction 1 as [|env req w _ IH|engine env w _ IH].
  - intros key h field raw Hk. simpl in Hk. by rewrite lookup_empty in Hk.
  - by apply upload_image_preserves_records.
  - intros key h field raw Hk. rewrite my_images_db in Hk. by apply (IH key h).
Qed.

(** *** C9 *)



(** ** The listing *)

Lemma filter_decode (l : list jsstring) :
  filter (fun a => JSON.truthy a = true) (decode <$> l) = omap surviving l.
Proof.
  induction l as [|raw l IH]; [done|].
  rewrite fmap_cons, filter_cons, IH. simpl. unfold decode, surviving.
  destruct (JSON.parse raw) as [v|]; [destruct (JSON.truthy v)|];
    destruct (decide _) as [H|H]; done.
Qed.

Lemma by_date_desc_comparable engine a b :
  comparable engine a -> comparable engine b ->
  by_date_desc engine a b =
    Returns match by_date_desc engine a b with Returns z => z | Throws _ => 0%Z end.
Proof.
  intros [pa Ha] [pb Hb]. unfold by_date_desc, js_lt. rewrite Ha, Hb.
  by destruct (match pa, pb with
               | PString x, PString y => str_ltb x y
               | PUndefined, _ | _, PUndefined => false
               | _, _ => lt_numeric engine pa pb
               end).
Qed.

Lemma dated_comparable engine v : dated v -> comparable engine v.
Proof. intros [d H]. exists (PString d). unfold comparable. by rewrite H. Qed.

(** In a collection of serialised records every value survives decoding
    and is dated. *)
Lemma collection_decodes (h : gmap jsstring jsstring) :
  (forall field raw, h !! field = Some raw ->
     exists a, raw = JSON.stringify (asset_properties a)) ->
  Forall dated (omap surviving (Object.values h)) /\
  (forall field a, h !! field = Some (JSON.stringify (asset_properties a)) ->
     asset_value a ∈ omap surviving (Object.values h)).
Proof.
  intros Hh. rewrite <- filter_decode. split.
  - apply Forall_forall. intros v Hv.
    apply list_elem_of_filter in Hv as [_ Hv].
    apply list_elem_of_fmap in Hv as [raw [-> Hraw]].
    unfold Object.values in Hraw.
    apply list_elem_of_fmap in Hraw as [[field raw'] [-> Hin]].
    apply elem_of_map_to_list in Hin.
    destruct (Hh _ _ Hin) as [a ->]. simpl.
    rewrite decode_stringify. exists (date a). apply asset_value_date.
  - intros field a Hf. apply list_elem_of_filter. split; [reflexivity|].
    apply list_elem_of_fmap. exists (JSON.stringify (asset_properties a)).
    split; [by rewrite decode_stringify|].
    unfold Object.values. apply list_elem_of_fmap.
    exists (field, JSON.stringify (asset_properties a)). split; [done|].
    by apply elem_of_map_to_list.
Qed.

(** The collections of a reachable world hold serialised records only. *)
Lemma reachable_collection w key :
  reachable w ->
  forall field raw, default ∅ (redis_db w !! key) !! field = Some raw ->
    exists a, raw = JSON.stringify (asset_properties a).
Proof.
  intros Hreach field raw Hf.
  destruct (redis_db w !! key) as [h|] eqn:Hk; simpl in Hf.
  - destruct (reachable_records w Hreach key h field raw Hk Hf) as (a & -> & _).
    by exists a.
  - by rewrite lookup_empty in Hf.
Qed.

(** *** C8 *)

(** C8 (as the handler has it): once the store has been read, a stored
    value on which [JSON.parse] throws, or that decodes to a falsy value, is
    left out of the listing without an error.  The other decoded values are
    listed as they are, with status 200 and in some order, whenever their
    [date] properties can be converted for the comparisons of the sort;
    that is so in every world the endpoints can reach.  A caller with no
    collection, or an empty one, gets the empty list.  In every case the
    answer is that 200 or, when a comparison throws, the 400 of the
    handler's [catch]. *)
Theorem history_drops_undecodable_values
    (engine : Numerics) (env : Env) (w : World) :
  opt_str_truthy (context_userId env) = true ->
  redis_error env = None ->
  let collection := default ∅ (redis_db w !! narrowed (context_userId env)) in
  let decoded := omap surviving (Object.values collection) in
  let w' := called (redis_hGetAll_call (narrowed (context_userId env))) w in
  let listed :=
    exists assets,
      my_images engine env w = (respond 200 (listUploads_body assets), w') /\
      assets ≡ₚ decoded in
  (forall raw, JSON.parse raw = None -> surviving raw = None) /\
  (Forall (comparable engine) decoded -> listed) /\
  (reachable w -> listed) /\
  (collection = ∅ ->
   my_images engine env w = (respond 200 (listUploads_body []), w')) /\
  (listed \/
   my_images engine env w =
     (error_response 400 "Failed to fetch uploads",
      called (console_error_call (js "List uploads error:")) w')).
Proof.
  intros Hu Hr collection decoded w' listed.
  pose proof (my_images_run engine env w Hu Hr) as Hrun. cbv zeta in Hrun.
  fold collection in Hrun. rewrite filter_decode in Hrun.
  fold decoded in Hrun. fold w' in Hrun.
  assert (Hgen : Forall (comparable engine) decoded -> listed).
  { intros Hc.
    destruct (sort_returns (by_date_desc engine) _ (comparable engine)
                (by_date_desc_comparable engine) decoded Hc) as [r Er].
    rewrite Er in Hrun. exists r. split; [done|].
    by apply (sort_Permutation _ _ _ Er). }
  split; [|split; [|split; [|split]]].
  - intros raw H. unfold surviving. by rewrite H.
  - exact Hgen.
  - intros Hreach. apply Hgen.
    destruct (collection_decodes collection (reachable_collection w _ Hreach))
      as [Hdated _].
    eapply Forall_impl; [exact Hdated|]. intros v. apply dated_comparable.
  - intros Hempty. unfold decoded in Hrun. rewrite Hempty in Hrun.
    unfold Object.values in Hrun. by rewrite map_to_list_empty in Hrun.
  - destruct (Array.sort (by_date_desc engine) decoded) as [r|e] eqn:Er.
    + left. exists r. split; [done|]. by apply (sort_Permutation _ _ _ Er).
    + by right.
Qed.

Lemma history_drops_undecodable_values_witness :
  exists assets,
    (my_images plain_engine env_day1 world_with_corrupt_entry).1
    = respond 200 (listUploads_body assets) /\
    length assets = 1%nat.
Proof.
  destruct (history_drops_undecodable_values plain_engine env_day1
              world_with_corrupt_entry) as (_ & Hlisted & _);
    [reflexivity | reflexivity |].
  destruct Hlisted as (assets & Hrun & Hperm).
  - vm_compute. repeat constructor. by eexists.
  - exists assets. split; [by rewrite Hrun|].
    rewrite Hperm. vm_compute. reflexivity.
Defined.

(** C8, as stated, fails: a collection of two values that both decode, one
    of them with a [date] that is an object hiding [toString]; comparing
    the two throws and the query answers 400. *)
Lemma uncomparable_date_fails_listing :
  opt_str_truthy (context_userId env_day1) = true /\
  redis_error env_day1 = None /\
  JSON.parse uncomparable_text
  = Some (JSON.JObject
            [(js "date", JSON.JObject [(js "toString", JSON.JNull)])]) /\
  JSON.parse (js "{}") = Some (JSON.JObject []) /\
  (my_images plain_engine env_day1 world_with_uncomparable_date).1
  = error_response 400 "Failed to fetch uploads" /\
  status (my_images plain_engine env_day1 world_with_uncomparable_date).1 <> 200%Z.
Proof. vm_compute. repeat split; discriminate. Qed.

(** ** The order of the listing *)

Lemma by_date_desc_dated engine a b :
  dated a -> dated b -> by_date_desc engine a b = Returns (newer_first a b).
Proof.
  intros [da Ha] [db Hb]. unfold by_date_desc, js_lt, newer_first, date_string.
  rewrite Ha, Hb. simpl. by destruct (str_ltb da db).
Qed.

Lemma newer_first_asym x y :
  (0 < newer_first x y)%Z -> in_order newer_first y x.
Proof.
  unfold in_order, newer_first.
  destruct (str_ltb (date_string x) (date_string y)) eqn:E; [|lia].
  rewrite (str_ltb_asym _ _ E). lia.
Qed.

Lemma newer_first_ntrans x y z :
  in_order newer_first x y -> in_order newer_first y z -> in_order newer_first x z.
Proof.
  unfold in_order, newer_first.
  destruct (str_ltb (date_string x) (date_string y)) eqn:E1; [lia|].
  destruct (str_ltb (date_string y) (date_string z)) eqn:E2; [lia|].
  rewrite (str_ltb_ntrans _ _ _ E1 E2). lia.
Qed.

(** A listing of dated values is produced, and has no older value before
    a newer one. *)
Lemma listing_sorted engine l :
  Forall dated l ->
  exists r, Array.sort (by_date_desc engine) l = Returns r /\
            r ≡ₚ l /\ StronglySorted (in_order newer_first) r.
Proof.
  intros Hl.
  destruct (sort_returns (by_date_desc engine) newer_first dated
              (by_date_desc_dated engine) l Hl) as [r Er].
  exists r. split; [done|]. split; [by apply (sort_Permutation _ _ _ Er)|].
  apply (sort_sorted (by_date_desc engine) newer_first dated
           (by_date_desc_dated engine)) with (l := l); try done.
  - intros x y _ _. apply newer_first_asym.
  - intros x y z _ _ _. apply newer_first_ntrans.
Qed.

(** *** C4 *)

(** C4: in a world the endpoints can reach, let the same caller upload
    twice with success, the clock reading T1 at the first upload and T2 at
    the second with T1 < T2 (as ISO-8601 strings, the way the handler
    compares them), the media store giving the two assets distinct URLs.
    Then the history query answers 200 and lists the record dated T2
    before the record dated T1. *)
Theorem newer_upload_listed_first
    (engine : Numerics)
    (env1 env2 env3 : Env) (req1 req2 : Request) (w0 : World)
    (m1 m2 : MediaAsset) :
  let run1 := upload_image env1 req1 w0 in
  let run2 := upload_image env2 req2 run1.2 in
  let run3 := my_images engine env3 run2.2 in
  let record1 := stored_record env1 (content_type req1) m1 in
  let record2 := stored_record env2 (content_type req2) m2 in
  reachable w0 ->
  context_userId env2 = context_userId env1 ->
  context_userId env3 = context_userId env1 ->
  status run1.1 = 200%Z ->
  status run2.1 = 200%Z ->
  media_answer env1 req1 = Returns m1 ->
  media_answer env2 req2 = Returns m2 ->
  asset_mediaUrl m1 <> asset_mediaUrl m2 ->
  str_ltb (clock_iso env1) (clock_iso env2) = true ->
  redis_error env3 = None ->
  date record1 = clock_iso env1 /\
  date record2 = clock_iso env2 /\
  exists assets i j,
    run3.1 = respond 200 (listUploads_body assets) /\
    assets !! i = Some (asset_value record2) /\
    assets !! j = Some (asset_value record1) /\
    (i < j)%nat.
Proof.
  intros run1 run2 run3 record1 record2 Hreach Hu2 Hu3 Hs1 Hs2 Hm1 Hm2 Hurl Hlt Hr3.
  split; [reflexivity|]. split; [reflexivity|].
  destruct (upload_image_success env1 req1 w0 run1.1 run1.2
              (surjective_pairing _) Hs1) as (a1 & Hauth & Ha1 & Hdb1).
  destruct (upload_image_success env2 req2 run1.2 run2.1 run2.2
              (surjective_pairing _) Hs2) as (a2 & _ & Ha2 & Hdb2).
  rewrite Hm1 in Ha1. injection Ha1 as <-.
  rewrite Hm2 in Ha2. injection Ha2 as <-.
  rewrite Hu2 in Hdb2.
  fold record1 in Hdb1. fold record2 in Hdb2.
  set (uid := narrowed (context_userId env1)) in *.
  assert (Hreach2 : reachable run2.2) by (do 2 apply reachable_upload; exact Hreach).
  set (s1 := JSON.stringify (asset_properties record1)) in *.
  set (s2 := JSON.stringify (asset_properties record2)) in *.
  set (h := <[asset_mediaUrl m2 := s2]>
              (<[asset_mediaUrl m1 := s1]> (default ∅ (redis_db w0 !! uid)))).
  assert (Hcol : redis_db run2.2 !! uid = Some h).
  { rewrite Hdb2. unfold redis.hash_set at 1. rewrite lookup_insert_eq.
    rewrite Hdb1. unfold redis.hash_set. by rewrite lookup_insert_eq. }
  pose proof (reachable_collection run2.2 uid Hreach2) as Hh.
  rewrite Hcol in Hh. simpl in Hh.
  destruct (collection_decodes h Hh) as [Hdated Hmem].
  assert (Hin1 : h !! asset_mediaUrl m1 = Some s1).
  { unfold h. rewrite lookup_insert_ne by done. apply lookup_insert_eq. }
  assert (Hin2 : h !! asset_mediaUrl m2 = Some s2) by apply lookup_insert_eq.
  destruct (listing_sorted engine _ Hdated) as (listing & Hsort & Hperm & Hsorted).
  unfold run3. rewrite my_images_run; [|by rewrite Hu3|done]. cbv zeta.
  rewrite Hu3. fold uid. rewrite Hcol. simpl default.
  rewrite filter_decode, Hsort. simpl.
  assert (Hl1 : asset_value record1 ∈ listing).
  { rewrite Hperm. by apply (Hmem (asset_mediaUrl m1)). }
  assert (Hl2 : asset_value record2 ∈ listing).
  { rewrite Hperm. by apply (Hmem (asset_mediaUrl m2)). }
  apply list_elem_of_lookup in Hl1 as [j Hj], Hl2 as [i Hi].
  exists listing, i, j. split; [reflexivity|]. split; [exact Hi|]. split; [exact Hj|].
  assert (Hcmp : newer_first (asset_value record1) (asset_value record2) = 1%Z).
  { unfold newer_first, date_string. rewrite !asset_value_date. simpl. by rewrite Hlt. }
  destruct (lt_eq_lt_dec i j) as [[Hij|Hij]|Hij]; [exact Hij| |].
  - subst j. assert (Heq : asset_value record2 = asset_value record1) by congruence.
    apply (f_equal (fun v => JSON.get v (js "date"))) in Heq.
    rewrite !asset_value_date in Heq. simpl in Heq. injection Heq as Hd.
    rewrite Hd, str_ltb_irrefl in Hlt. discriminate.
  - pose proof (StronglySorted_lookup _ _ _ _ _ _ Hsorted Hj Hi Hij) as Hord.
    unfold in_order in Hord. rewrite Hcmp in Hord. lia.
Qed.

Lemma newer_upload_listed_first_witness :
  exists assets i j,
    (my_images plain_engine env_day2
       (upload_image env_day2 png_request
          (upload_image env_day1 png_request fresh_world).2).2).1
    = respond 200 (listUploads_body assets) /\
    assets !! i
    = Some (asset_value
              {| mediaType := image; mediaUrl := js "https://i.redd.it/two.png";
                 mediaId := js "media-2"; date := js "2024-01-02T09:30:00.000Z" |}) /\
    assets !! j
    = Some (asset_value
              {| mediaType := image; mediaUrl := js "https://i.redd.it/one.png";
                 mediaId := js "media-1"; date := js "2024-01-01T10:00:00.000Z" |}) /\
    (i < j)%nat.
Proof.
  destruct (newer_upload_listed_first plain_engine
              env_day1 env_day2 env_day2 png_request png_request fresh_world
              {| asset_mediaId := js "media-1";
                 asset_mediaUrl := js "https://i.redd.it/one.png" |}
              {| asset_mediaId := js "media-2";
                 asset_mediaUrl := js "https://i.redd.it/two.png" |})
    as (_ & _ & assets & i & j & Hrun & Hi & Hj & Hij);
    try reflexivity.
  - apply reachable_fresh.
  - vm_compute. discriminate.
  - exists assets, i, j. repeat split; assumption.
Defined.

Lemma jpeg_header_and_trailer_witness :
  validByMagic (Some (js "image/jpeg")) [xff; xd8; x00; xff; xd9] = true /\
  validByMagic (Some (js "image/jpeg")) [xff; xd8; x00; xff; xd8] = false.
Proof.
  split.
  - apply (proj1 (jpeg_header_and_trailer [xff; xd8; x00; xff; xd9])).
    split; reflexivity.
  - apply (proj2 (jpeg_header_and_trailer [xff; xd8; x00; xff; xd8]));
      [reflexivity | discriminate].
Defined.

(** * Further properties *)

(** ** The other magic-number checks *)

(** X1: [isPng] accepts a buffer exactly when its first eight bytes are the
    PNG signature; in particular anything shorter is refused. *)
Theorem isPng_iff_signature (buf : list byte) :
  isPng buf = true <-> take 8 buf = png_signature.
Proof.
  split.
  - unfold isPng. rewrite !andb_true_iff, !at_eq_spec. intros H.
    destruct H as [[[[[[[[_ H0] H1] H2] H3] H4] H5] H6] H7].
    do 8 (destruct buf as [|? buf]; [discriminate|]).
    simpl in *. by simplify_eq.
  - intros H. rewrite <- (take_drop 8 buf), H. reflexivity.
Qed.

(** X2: [isGif] accepts a buffer exactly when its first six bytes spell
    GIF87a or GIF89a. *)
Theorem isGif_iff_version (buf : list byte) :
  isGif buf = true <-> take 6 buf = gif87a \/ take 6 buf = gif89a.
Proof.
  split.
  - unfold isGif. rewrite !andb_true_iff, orb_true_iff, !at_eq_spec. intros H.
    destruct H as [[[[[[_ H0] H1] H2] H3] H4] H5].
    do 6 (destruct buf as [|? buf]; [by destruct H4|]).
    simpl in *. destruct H4; [left|right]; by simplify_eq.
  - intros [H|H]; rewrite <- (take_drop 6 buf), H; reflexivity.
Qed.

(** X3: [isWebp] accepts a buffer exactly when bytes 0-3 spell RIFF and
    bytes 8-11 spell WEBP; bytes 4-7, the chunk size, are not looked at:
    changing them never changes the verdict. *)
Theorem isWebp_iff_riff_webp (buf : list byte) :
  (isWebp buf = true <-> take 4 buf = riff /\ take 4 (drop 8 buf) = webp_tag) /\
  (forall h0 h1 h2 h3 s0 s1 s2 s3 t0 t1 t2 t3 : byte,
     isWebp (h0 :: h1 :: h2 :: h3 :: s0 :: s1 :: s2 :: s3 :: buf)
     = isWebp (h0 :: h1 :: h2 :: h3 :: t0 :: t1 :: t2 :: t3 :: buf)).
Proof.
  split; [|reflexivity]. split.
  - unfold isWebp. rewrite !andb_true_iff, !at_eq_spec. intros H.
    destruct H as [[[[[[[[_ H0] H1] H2] H3] H8] H9] H10] H11].
    do 12 (destruct buf as [|? buf]; [discriminate|]).
    simpl in *. by simplify_eq.
  - intros [H1 H2].
    rewrite <- (take_drop 4 buf), H1.
    assert (H3 : drop 8 (riff ++ drop 4 buf) = drop 4 (drop 4 buf)) by reflexivity.
    rewrite <- (take_drop 4 buf), H1, H3 in H2.
    destruct (drop 4 buf) as [|s0 [|s1 [|s2 [|s3 tail]]]]; try discriminate.
    change (take 4 tail = webp_tag) in H2.
    rewrite <- (take_drop 4 tail), H2. reflexivity.
Qed.

(** ** The raw body parser and the handler *)

Lemma raw_type_allowed ct : raw_type ct = true <-> allowed_type ct.
Proof.
  unfold raw_type, strict_eq. rewrite !orb_true_iff, !bool_decide_eq_true. split.
  - intros [[[->| ->]| ->]| ->]; [by exists Png|by exists Jpeg|by exists Gif|by exists Webp].
  - intros [[] ->]; auto.
Qed.

Lemma allowed_type_dec ct : allowed_type ct \/ ~ allowed_type ct.
Proof.
  destruct (raw_type ct) eqn:E.
  - left. by apply raw_type_allowed.
  - right. intros H. apply raw_type_allowed in H. congruence.
Qed.

Lemma upload_image_paths env req w : upload_path env req w.
Proof.
  destruct (opt_str_truthy (context_userId env)) eqn:Hu.
  2: { apply path_unauthorized; [done|]. by apply upload_image_unauthorized. }
  destruct (allowed_type_dec (content_type req)) as [Ha|Ha].
  2: { apply path_unsupported; try done. by apply upload_image_unsupported_type. }
  assert (Hbody : as_Buffer (req_body req) = [] \/
                  exists b bs, req_body req = BBuffer (b :: bs)).
  { destruct (req_body req) as [|[|b bs]|t]; simpl; eauto. }
  destruct Hbody as [Hb|(b & bs & Hb)].
  { apply path_no_body; try done. apply upload_image_empty_body; try done.
    rewrite Hb. simpl. apply orb_true_r. }
  destruct (validByMagic (content_type req) (b :: bs)) eqn:Hm.
  2: { apply (path_bad_magic _ _ _ (b :: bs)); try done.
       by apply (upload_image_bad_magic _ _ _ (b :: bs)). }
  pose proof (upload_image_run env req w (b :: bs) Hu Hb Hm) as Hrun.
  cbv zeta in Hrun.
  assert (Hans : media_answer env req
                 = media_service env (derived_mediaType (content_type req))
                     (data_url (content_type req) (b :: bs))).
  { unfold media_answer. by rewrite Hb. }
  rewrite <- Hans in Hrun.
  destruct (media_answer env req) as [asset|e] eqn:Hmedia.
  2: { by apply (path_media_down _ _ _ (b :: bs) e). }
  destruct (redis_error env) as [e|] eqn:Hredis.
  { by apply (path_registry_down _ _ _ (b :: bs) asset e). }
  apply (path_stored _ _ _ (b :: bs) asset); try done.
  rewrite Hrun. f_equal. f_equal. simpl. by rewrite <- app_assoc.
Qed.

Ltac other_answer H :=
  apply (f_equal fst) in H; simpl in H; vm_compute in H; discriminate.

(** X4: the [type] callback of the raw body parser and the first check of
    the upload handler draw the same line: for an authenticated caller the
    handler answers 415 "Unsupported Content-Type" exactly for the
    requests whose body the raw parser does not read. *)
Theorem raw_parser_agrees_with_type_check (env : Env) (req : Request) (w : World) :
  opt_str_truthy (context_userId env) = true ->
  (raw_type (content_type req) = false <->
   upload_image env req w = (error_response 415 "Unsupported Content-Type", w)).
Proof.
  intros Hu. split.
  - intros Hraw. apply upload_image_unsupported_type; [done|].
    intros Ha. apply raw_type_allowed in Ha. congruence.
  - intros Hrun. apply not_true_is_false. intros Hraw.
    apply raw_type_allowed in Hraw.
    destruct (upload_image_paths env req w) as
      [? H|? ? H|? ? ? H|? ? ? ? ? ? H|? ? ? ? ? ? H|? ? ? ? ? ? ? ? H|? ? ? ? ? ? ? H];
      try done; rewrite H in Hrun; other_answer Hrun.
Qed.

Lemma raw_parser_agrees_with_type_check_witness :
  raw_type (content_type empty_text_request) = false /\
  upload_image env_day1 empty_text_request fresh_world
  = (error_response 415 "Unsupported Content-Type", fresh_world).
Proof.
  split; [reflexivity|].
  apply (raw_parser_agrees_with_type_check env_day1 empty_text_request fresh_world);
    reflexivity.
Defined.

(** ** The upload handler as a whole *)

Lemma validByMagic_allowed ct bytes :
  validByMagic ct bytes = true -> allowed_type ct /\ bytes <> [].
Proof.
  intros H. destruct (validByMagic_inv _ _ H) as (f & -> & Hf). split; [by exists f|].
  apply has_magic_length in Hf. intros ->. simpl in Hf. lia.
Qed.

(** X5: the upload handler answers 200, 400, 401 or 415 and nothing else:
    401 exactly when the caller has no identity; 415 exactly when an
    authenticated caller declares a type outside the four, or sends a
    non-empty buffer that fails the check of the declared type; 200 exactly
    when an authenticated caller's buffer passes the check and both the
    media store and the key-value store answer. *)
Theorem upload_status_table (env : Env) (req : Request) (w : World) :
  let st := status (upload_image env req w).1 in
  let authenticated := opt_str_truthy (context_userId env) = true in
  (st = 200 \/ st = 400 \/ st = 401 \/ st = 415)%Z /\
  (st = 401%Z <-> ~ authenticated) /\
  (st = 415%Z <->
   authenticated /\
   (~ allowed_type (content_type req) \/
    exists bytes, req_body req = BBuffer bytes /\ bytes <> [] /\
                  validByMagic (content_type req) bytes = false)) /\
  (st = 200%Z <->
   authenticated /\
   (exists bytes, req_body req = BBuffer bytes /\
                  validByMagic (content_type req) bytes = true) /\
   (exists asset, media_answer env req = Returns asset) /\
   redis_error env = None).
Proof.
  intros st authenticated. subst st authenticated.
  destruct (upload_image_paths env req w) as
    [Hu H|Hu Ha H|Hu Ha Hb H|bytes Hu Ha Hb Hne Hm H|bytes e Hu Hb Hm Hmedia H
    |bytes asset e Hu Hb Hm Hmedia Hredis H|bytes asset Hu Hb Hm Hmedia Hredis H];
    rewrite H; simpl; clear H.
  all: try (destruct (validByMagic_allowed _ _ Hm) as [Ha Hne]).
  all: repeat split; intros; try done; try lia;
    repeat match goal with
    | H : _ /\ _ |- _ => destruct H
    | H : exists _, _ |- _ => destruct H
    | H : _ \/ _ |- _ => destruct H
    end;
    repeat match goal with
    | H : req_body ?r = _, H' : as_Buffer (req_body ?r) = _ |- _ =>
        rewrite H in H'; simpl in H'
    | H : req_body ?r = BBuffer ?a, H' : req_body ?r = BBuffer ?b |- _ =>
        rewrite H in H'; injection H' as ?
    end;
    simplify_eq; try done; try congruence;
    try (match goal with
         | H : validByMagic _ _ = true |- _ =>
             destruct (validByMagic_allowed _ _ H); done
         end);
    try (eexists; split; eassumption); eauto 10.
Qed.



(** X7: the registry changes only on success, and then in one field only:
    an answer other than 200 leaves the whole store as it was; a 200
    leaves every field other than the new record's, of every key, as it
    was. *)
Theorem registry_changes_only_on_success
    (env : Env) (req : Request) (w : World) :
  let r := (upload_image env req w).1 in
  let w' := (upload_image env req w).2 in
  (status r <> 200%Z -> redis_db w' = redis_db w) /\
  (status r = 200%Z ->
   exists asset,
     media_answer env req = Returns asset /\
     forall key field : jsstring,
       key <> narrowed (context_userId env) \/ field <> asset_mediaUrl asset ->
       default ∅ (redis_db w' !! key) !! field = default ∅ (redis_db w !! key) !! field).
Proof.
  intros r w'. subst r w'. split.
  - intros Hst. destruct (upload_image_cases env req w) as [Hok|[_ Hdb]]; [|done].
    destruct Hok as (bytes & asset & Hu & Hb & Hm & Hmedia & Hredis).
    rewrite (upload_image_run _ _ _ _ Hu Hb Hm) in Hst. cbv zeta in Hst.
    by rewrite Hmedia, Hredis in Hst.
  - intros Hst.
    destruct (upload_image_success env req w _ _ (surjective_pairing _) Hst)
      as (asset & Hu & Hmedia & Hdb).
    exists asset. split; [done|]. intros key field Hother.
    rewrite Hdb. unfold redis.hash_set.
    destruct (decide (narrowed (context_userId env) = key)) as [<-|Hk].
    + rewrite lookup_insert_eq. simpl.
      destruct Hother as [?|Hf]; [done|]. by rewrite lookup_insert_ne.
    + by rewrite lookup_insert_ne.
Qed.

Lemma registry_changes_only_on_success_witness :
  redis_db (upload_image env_redis_down png_request fresh_world).2 = ∅.
Proof.
  apply (proj1 (registry_changes_only_on_success env_redis_down png_request fresh_world)).
  vm_compute. discriminate.
Defined.


(** ** The history handler as a whole *)

(** The answer of the history query depends on the store only through the
    caller's collection. *)
Lemma my_images_response_ext engine env w1 w2 :
  redis_db w1 !! narrowed (context_userId env)
  = redis_db w2 !! narrowed (context_userId env) ->
  (my_images engine env w1).1 = (my_images engine env w2).1.
Proof.
  intros Hcol.
  destruct (opt_str_truthy (context_userId env)) eqn:Hu.
  - destruct (redis_error env) as [e|] eqn:Hr.
    + by rewrite !(my_images_redis_down _ _ _ e).
    + rewrite !my_images_run by done. cbv zeta. rewrite Hcol.
      by destruct (Array.sort _ _).
  - by rewrite !my_images_unauthorized.
Qed.

(** X9: an upload touches the uploader's collection only: whatever it
    answers, the collection of every other key is as it was, and the
    history query of any other caller answers what it answered before. *)
Theorem upload_leaves_other_users_alone
    (engine : Numerics) (env other : Env) (req : Request) (w : World) :
  narrowed (context_userId other) <> narrowed (context_userId env) ->
  redis_db (upload_image env req w).2 !! narrowed (context_userId other)
  = redis_db w !! narrowed (context_userId other) /\
  (my_images engine other (upload_image env req w).2).1 = (my_images engine other w).1.
Proof.
  intros Hother.
  assert (Hcol : redis_db (upload_image env req w).2 !! narrowed (context_userId other)
                 = redis_db w !! narrowed (context_userId other)).
  { destruct (upload_image_cases env req w) as [Hok|[_ Hdb]]; [|by rewrite Hdb].
    destruct Hok as (bytes & asset & Hu & Hb & Hm & Hmedia & Hredis).
    rewrite (upload_image_run _ _ _ _ Hu Hb Hm). cbv zeta.
    rewrite Hmedia, Hredis. simpl. unfold redis.hash_set.
    by rewrite lookup_insert_ne. }
  split; [exact Hcol|]. by apply my_images_response_ext.
Qed.

Lemma upload_leaves_other_users_alone_witness :
  (my_images plain_engine env_bob (upload_image env_day1 png_request fresh_world).2).1
  = respond 200 (listUploads_body []).
Proof.
  rewrite (proj2 (upload_leaves_other_users_alone plain_engine env_day1 env_bob
                    png_request fresh_world ltac:(vm_compute; discriminate))).
  reflexivity.
Defined.


(** ** Uploads seen through the history *)







(** X13: the registry is keyed by [mediaUrl] and nothing else: a successful
    upload whose URL is new to the caller's collection adds one field to
    it, whatever the payload (the same bytes uploaded again under a new
    URL are a new record); one whose URL is already there replaces that
    field and the collection keeps its size. *)
Theorem upload_adds_or_replaces_one_field
    (env : Env) (req : Request) (w : World) (asset : MediaAsset) :
  let uid := narrowed (context_userId env) in
  let before := default ∅ (redis_db w !! uid) in
  let after := default ∅ (redis_db (upload_image env req w).2 !! uid) in
  status (upload_image env req w).1 = 200%Z ->
  media_answer env req = Returns asset ->
  after !! asset_mediaUrl asset
  = Some (JSON.stringify (asset_properties (stored_record env (content_type req) asset))) /\
  (before !! asset_mediaUrl asset = None -> size after = S (size before)) /\
  (is_Some (before !! asset_mediaUrl asset) -> size after = size before).
Proof.
  intros uid before after Hst Hmedia.
  destruct (upload_image_success env req w _ _ (surjective_pairing _) Hst)
    as (asset' & Hauth & Hmedia' & Hdb).
  rewrite Hmedia in Hmedia'. injection Hmedia' as <-.
  assert (Hafter : after = <[asset_mediaUrl asset :=
             JSON.stringify (asset_properties (stored_record env (content_type req) asset))]>
             before).
  { unfold after. rewrite Hdb. unfold redis.hash_set. by rewrite lookup_insert_eq. }
  rewrite Hafter. split; [apply lookup_insert_eq|]. split.
  - intros Hnew. by apply map_size_insert_None.
  - intros Hold. by apply map_size_insert_Some.
Qed.

Lemma upload_adds_or_replaces_one_field_witness :
  size (default ∅ (redis_db (upload_image env_day1 png_request fresh_world).2 !! alice))
  = 1%nat.
Proof.
  destruct (upload_adds_or_replaces_one_field env_day1 png_request fresh_world
              {| asset_mediaId := js "media-1";
                 asset_mediaUrl := js "https://i.redd.it/one.png" |})
    as (_ & Hnew & _); [reflexivity | reflexivity |].
  exact (Hnew eq_refl).
Defined.

(** ** The data URL sent to the media store *)

Lemma b64_index_digit n : n < 64 -> b64_index (b64_digit n) = n /\ b64_digit n <> 61.
Proof.
  intros H. destruct n as [|p]; [by split|].
  do 6 (destruct p as [p|p|]; try (split; [reflexivity|discriminate])); lia.
Qed.

Lemma b64_digit_inj n m : n < 64 -> m < 64 -> b64_digit n = b64_digit m -> n = m.
Proof.
  intros Hn Hm H. apply (f_equal b64_index) in H.
  rewrite (proj1 (b64_index_digit n Hn)), (proj1 (b64_index_digit m Hm)) in H. exact H.
Qed.

Lemma byte_to_N_inj x y : Byte.to_N x = Byte.to_N y -> x = y.
Proof.
  intros H. apply (f_equal Byte.of_N) in H. rewrite !Byte.of_to_N in H. congruence.
Qed.

Ltac byte_facts x :=
  pose proof (Byte.to_N_bounded x);
  pose proof (N.div_mod (Byte.to_N x) 4 ltac:(lia));
  pose proof (N.mod_lt (Byte.to_N x) 4 ltac:(lia));
  pose proof (N.div_mod (Byte.to_N x) 16 ltac:(lia));
  pose proof (N.mod_lt (Byte.to_N x) 16 ltac:(lia));
  pose proof (N.div_mod (Byte.to_N x) 64 ltac:(lia));
  pose proof (N.mod_lt (Byte.to_N x) 64 ltac:(lia));
  pose proof (N.le_0_l (Byte.to_N x / 4));
  pose proof (N.le_0_l (Byte.to_N x / 16));
  pose proof (N.le_0_l (Byte.to_N x / 64));
  pose proof (N.le_0_l (Byte.to_N x mod 4));
  pose proof (N.le_0_l (Byte.to_N x mod 16));
  pose proof (N.le_0_l (Byte.to_N x mod 64)).

Ltac digit_eq H :=
  apply b64_digit_inj in H; [|lia|lia].

Lemma b64_digit_not_pad n : b64_digit n = 61 -> 64 <= n.
Proof.
  intros H. destruct (N.le_gt_cases 64 n) as [|Hlt]; [done|].
  by destruct (proj2 (b64_index_digit n Hlt)).
Qed.

Ltac digit_pad H :=
  first [ apply b64_digit_not_pad in H
        | symmetry in H; apply b64_digit_not_pad in H ];
  lia.

Lemma toString_base64_inj a : forall b,
  toString_base64 a = toString_base64 b -> a = b.
Proof.
  remember (length a) as n eqn:Hn. revert a Hn.
  induction (lt_wf n) as [n _ IH]. intros a Hn b H. subst n.
  destruct a as [|x [|y [|z a]]]; destruct b as [|x' [|y' [|z' b]]];
    simpl in H; try discriminate; try reflexivity.
  - injection H as H1 H2. byte_facts x. byte_facts x'.
    digit_eq H1. digit_eq H2. f_equal. apply byte_to_N_inj. lia.
  - injection H as H1 H2 H3. byte_facts y'. digit_pad H3.
  - injection H as H1 H2 H3 H4. byte_facts y'. byte_facts z'. digit_pad H3.
  - injection H as H1 H2 H3. byte_facts y. digit_pad H3.
  - injection H as H1 H2 H3. byte_facts x. byte_facts x'. byte_facts y. byte_facts y'.
    digit_eq H1. digit_eq H2. digit_eq H3.
    assert (Byte.to_N x = Byte.to_N x') by lia.
    assert (Byte.to_N y = Byte.to_N y') by lia.
    f_equal; [by apply byte_to_N_inj|]. f_equal. by apply byte_to_N_inj.
  - injection H as H1 H2 H3 H4. byte_facts z'. digit_pad H4.
  - injection H as H1 H2 H3 H4. byte_facts y. byte_facts z. digit_pad H3.
  - injection H as H1 H2 H3 H4. byte_facts z. digit_pad H4.
  - injection H as H1 H2 H3 H4 H5.
    byte_facts x. byte_facts x'. byte_facts y. byte_facts y'. byte_facts z. byte_facts z'.
    digit_eq H1. digit_eq H2. digit_eq H3. digit_eq H4.
    assert (Byte.to_N x = Byte.to_N x') by lia.
    assert (Byte.to_N y = Byte.to_N y') by lia.
    assert (Byte.to_N z = Byte.to_N z') by lia.
    rewrite (byte_to_N_inj x x'), (byte_to_N_inj y y'), (byte_to_N_inj z z') by done.
    do 3 f_equal. apply (IH (length a)); [simpl; lia | reflexivity | exact H5].
Qed.

(** X14: the data URL the upload handler sends to the media store carries
    the declared type and the payload without loss: two uploads with
    allowed types that send the same data URL have the same declared type
    and the same bytes. *)
Theorem data_url_determines_type_and_payload
    (ct1 ct2 : option jsstring) (bytes1 bytes2 : list byte) :
  allowed_type ct1 -> allowed_type ct2 ->
  data_url ct1 bytes1 = data_url ct2 bytes2 ->
  ct1 = ct2 /\ bytes1 = bytes2.
Proof.
  intros [f1 ->] [f2 ->] H.
  destruct f1, f2; unfold data_url in H; simpl in H;
    try discriminate;
    (split; [reflexivity|]);
    repeat (injection H as H); by apply toString_base64_inj.
Qed.

Lemma data_url_determines_type_and_payload_witness :
  allowed_type (Some (js "image/gif")) /\
  (Some (js "image/gif") = Some (js "image/gif") /\ gif89a = gif89a).
Proof.
  assert (Hgif : allowed_type (Some (js "image/gif"))) by (by exists Gif).
  split; [exact Hgif|].
  apply (data_url_determines_type_and_payload
           (Some (js "image/gif")) (Some (js "image/gif")) gif89a gif89a Hgif Hgif).
  reflexivity.
Defined.

(** ** The client's checks *)

Lemma includes_allowedTypes t :
  App.includes App.allowedTypes t = raw_type (Some t).
Proof.
  unfold App.includes, App.allowedTypes, raw_type, strict_eq. simpl.
  repeat case_bool_decide; simplify_eq; done.
Qed.

Lemma includes_In t : App.includes App.allowedTypes t = true <-> In t App.allowedTypes.
Proof.
  unfold App.includes. rewrite existsb_exists. split.
  - intros (y & Hy & E). apply bool_decide_eq_true in E. by subst.
  - intros H. exists t. split; [done|]. by apply bool_decide_eq_true.
Qed.

Lemma validateFile_None file :
  App.validateFile file = None <->
  In (App.type file) App.allowedTypes /\ App.size file <= 4194304.
Proof.
  unfold App.validateFile. rewrite <- includes_In.
  destruct (App.includes App.allowedTypes (App.type file)); simpl.
  - change (4 * 1024 * 1024) with 4194304.
    destruct (N.ltb_spec 4194304 (App.size file)); split;
      first [done | intros [_ ?]; lia | intros _; split; [done|lia]].
  - split; [done|]. by intros [? _].
Qed.

Lemma validateFile_truthy file :
  opt_str_truthy (App.validateFile file) = false <-> App.validateFile file = None.
Proof.
  unfold App.validateFile.
  destruct (negb _); [by split|]. destruct (_ <? _); by split.
Qed.

Lemma unsupported_type_answer env req w :
  opt_str_truthy (context_userId env) = true ->
  (~ allowed_type (content_type req) <->
   upload_image env req w = (error_response 415 "Unsupported Content-Type", w)).
Proof.
  intros Hu. split.
  - by apply upload_image_unsupported_type.
  - intros Hrun Ha.
    destruct (upload_image_paths env req w) as
      [? H|? ? H|? ? ? H|? ? ? ? ? ? H|? ? ? ? ? ? H|? ? ? ? ? ? ? ? H|? ? ? ? ? ? ? H];
      try done; rewrite H in Hrun; other_answer Hrun.
Qed.

(** X15: the client and the server draw the same line on the declared
    type: for a request that carries the file's type as its Content-Type,
    from an authenticated caller, the client's [validateFile] rejects the
    file as not being a PNG, JPEG, GIF or WEBP image exactly when the
    upload handler answers 415 "Unsupported Content-Type". *)
Theorem client_and_server_agree_on_types
    (file : App.File) (env : Env) (req : Request) (w : World) :
  content_type req = Some (App.type file) ->
  opt_str_truthy (context_userId env) = true ->
  (App.validateFile file = Some (js "Only PNG, JPEG, GIF, or WEBP images are allowed.") <->
   upload_image env req w = (error_response 415 "Unsupported Content-Type", w)).
Proof.
  intros Hct Hu. rewrite <- (unsupported_type_answer env req w Hu), Hct.
  rewrite <- raw_type_allowed, <- includes_allowedTypes.
  unfold App.validateFile.
  destruct (App.includes App.allowedTypes (App.type file)); simpl.
  - split; [|done]. destruct (_ <? _); [|done]. intros H. by vm_compute in H.
  - split; [|done]. intros _. done.
Qed.

Lemma client_and_server_agree_on_types_witness :
  App.validateFile notes_file = Some (js "Only PNG, JPEG, GIF, or WEBP images are allowed.") /\
  upload_image env_day1 text_request fresh_world
  = (error_response 415 "Unsupported Content-Type", fresh_world).
Proof.
  split; [reflexivity|].
  apply (client_and_server_agree_on_types notes_file env_day1 text_request fresh_world);
    reflexivity.
Defined.

(** ** Choosing a file *)

(** X16: [handleFiles] starts the upload of a file exactly when that file
    is the first of the chosen ones, its type is one of the four allowed
    and its size is at most 4194304 bytes (4 MiB, the bound included); the
    files after the first are never uploaded, and nothing is uploaded when
    no file was chosen. *)
Theorem handleFiles_uploads_valid_first_file
    (object_url : App.File -> jsstring) (files : option (list App.File))
    (s : App.State) (f : App.File) :
  In (App.call_uploadFile f) (App.handleFiles object_url files s).2 <->
  exists rest, files = Some (f :: rest) /\
               In (App.type f) App.allowedTypes /\ App.size f <= 4194304.
Proof.
  unfold App.handleFiles. destruct files as [[|file rest]|]; simpl.
  - split; [done|]. by intros (? & ? & _).
  - destruct (opt_str_truthy (App.validateFile file)) eqn:E.
    + unfold App.resetPreview. simpl. split.
      * destruct (opt_str_truthy (App.previewUrl s)); simpl; [|done].
        intros [?|[]]. done.
      * intros (rest' & Hf & Hv). injection Hf as -> ->.
        apply validateFile_None in Hv. rewrite Hv in E. done.
    + apply validateFile_truthy in E. simpl. split.
      * intros [?|[H|[]]]; [done|]. injection H as <-.
        exists rest. split; [done|]. by apply validateFile_None.
      * intros (rest' & Hf & _). injection Hf as -> ->. right. by left.
  - split; [done|]. by intros (? & ? & _).
Qed.

(** X17: [handleFiles] releases an object URL only when it rejects a
    file, and then it is the URL of the preview shown so far; when the
    chosen file is accepted the URL of the previous preview is not
    released, and neither is it when nothing was chosen. *)
Theorem preview_url_released_only_on_rejection
    (object_url : App.File -> jsstring) (files : option (list App.File))
    (s : App.State) (u : jsstring) :
  In (App.revokeObjectURL u) (App.handleFiles object_url files s).2 <->
  App.previewUrl s = Some u /\ u <> [] /\
  exists file rest, files = Some (file :: rest) /\ App.validateFile file <> None.
Proof.
  unfold App.handleFiles. destruct files as [[|file rest]|]; simpl.
  - split; [done|]. by intros (_ & _ & ? & ? & ? & _).
  - destruct (opt_str_truthy (App.validateFile file)) eqn:E.
    + unfold App.resetPreview. simpl.
      assert (Hv : App.validateFile file <> None).
      { intros Hv. apply validateFile_truthy in Hv. congruence. }
      destruct (App.previewUrl s) as [[|c p]|]; simpl.
      * split; [done|]. intros (H & Hne & _). by injection H as <-.
      * split.
        -- intros [H|[]]. injection H as <-. repeat split; try done. by exists file, rest.
        -- intros (H & _). injection H as <-. by left.
      * split; [done|]. by intros (? & _).
    + apply validateFile_truthy in E. simpl. split.
      * intros [?|[?|[]]]; done.
      * intros (_ & _ & file' & rest' & Hf & Hv). by injection Hf as <- <-.
  - split; [done|]. by intros (_ & _ & ? & ? & ? & _).
Qed.

(** X18: when [handleFiles] rejects the first chosen file it shows the
    reason and clears the selection: the message is the one [validateFile]
    gave, no file is selected, no preview is shown, the last server answer
    is forgotten, and neither an object URL is made nor an upload started. *)
Theorem rejected_file_clears_selection
    (object_url : App.File -> jsstring) (file : App.File) (rest : list App.File)
    (s : App.State) :
  App.validateFile file <> None ->
  let s' := (App.handleFiles object_url (Some (file :: rest)) s).1 in
  let effects := (App.handleFiles object_url (Some (file :: rest)) s).2 in
  App.message s' = App.validateFile file /\
  App.selectedFile s' = None /\
  App.previewUrl s' = None /\
  App.serverInfo s' = JSON.JNull /\
  App.uploading s' = App.uploading s /\
  forall f, ~ In (App.createObjectURL f) effects /\ ~ In (App.call_uploadFile f) effects.
Proof.
  intros Hv s' effects. subst s' effects. unfold App.handleFiles.
  destruct (opt_str_truthy (App.validateFile file)) eqn:E.
  - unfold App.resetPreview. simpl. repeat split; try done;
      destruct (opt_str_truthy (App.previewUrl s)); simpl; naive_solver.
  - apply validateFile_truthy in E. done.
Qed.

Lemma rejected_file_clears_selection_witness :
  App.message (App.handleFiles blob_url (Some [notes_file; cat_file]) previewing).1
  = Some (js "Only PNG, JPEG, GIF, or WEBP images are allowed.") /\
  App.selectedFile (App.handleFiles blob_url (Some [notes_file; cat_file]) previewing).1
  = None.
Proof.
  destruct (rejected_file_clears_selection blob_url notes_file [cat_file] previewing)
    as (H1 & H2 & _); [discriminate|].
  split; [exact H1 | exact H2].
Defined.

(** ** The upload as the client sees it *)


Lemma upload_status_cases env req w :
  (status (upload_image env req w).1 = 200 \/
   status (upload_image env req w).1 = 400 \/
   status (upload_image env req w).1 = 401 \/
   status (upload_image env req w).1 = 415)%Z.
Proof.
  destruct (upload_image_paths env req w) as
    [? H|? ? H|? ? ? H|? ? ? ? ? ? H|? ? ? ? ? ? H|? ? ? ? ? ? ? ? H|? ? ? ? ? ? ? H];
    rewrite H; simpl; auto.
Qed.

(** X20: the client and the upload handler together: when the handler's
    answer reaches [uploadFile], the component shows "Upload successful"
    only if the handler answered 200; each of the handler's refusals (401,
    415, 400) ends in the failure message with no server answer kept,
    whatever the body of the answer. *)
Theorem refused_upload_shows_failure
    (env : Env) (req : Request) (w : World) (json : Outcome JSON.value)
    (s : App.State) :
  let r := (upload_image env req w).1 in
  let s' := App.uploadFile (App.fetch_resolved (status r) json) s in
  status r <> 200%Z ->
  App.message s' = Some (js "Upload failed. Please try another image.") /\
  App.serverInfo s' = JSON.JNull /\
  App.uploading s' = false.
Proof.
  intros r s' Hr. subst r s'.
  destruct (upload_status_cases env req w) as [H|[H|[H|H]]]; [done| | |];
    rewrite H; unfold App.uploadFile; simpl; done.
Qed.

Lemma refused_upload_shows_failure_witness :
  App.message
    (App.uploadFile
       (App.fetch_resolved (status (upload_image env_day1 text_request fresh_world).1)
          (Returns JSON.JNull)) idle)
  = Some (js "Upload failed. Please try another image.").
Proof.
  destruct (refused_upload_shows_failure env_day1 text_request fresh_world
              (Returns JSON.JNull) idle) as [H _]; [|exact H].
  vm_compute. discriminate.
Defined.

(** ** The history as the client sees it *)



